(** * Sync orchestration and log redaction of the Airbyte Python bases

    A shallow embedding of

    - [airbyte_cdk/logger.py]: [AirbyteLogFormatter.format],
      [AirbyteNativeLogger.log_by_prefix], [AirbyteLogger];
    - [base_python/sdk/abstract_source.py]: [AbstractSource.discover],
      [check], [read] and [_read_stream];

    followed by the properties of the specification, each stated on these
    definitions.

    Conventions.  A Python [str] is a [string] (code points below 256).  A
    Python [dict] keyed by stream name is a [gmap string _]; the dict
    returned by [streams(config)] is an association list in insertion order,
    because [discover] iterates it.  JSON-like Python values are [json].
    Python [int] is [Z].  Generators are run to completion: the messages a
    generator yields and the lines the logger prints are collected, in
    order, in one list of events. *)

From Stdlib Require Import ZArith Lia.
From Stdlib Require QArith.QArith_base.
From stdpp Require Import base option list gmap strings.

Set Warnings "-register-all".
Local Open Scope Z_scope.

(** ** Python values *)

(** JSON-like values: record payloads, schemas and cursor states. *)
Inductive json :=
| JNull
| JBool (b : bool)
| JNum (n : Z)
| JStr (s : string)
| JArr (items : list json)
| JObj (fields : list (string * json)).

(** Python truth value of an object ([if x:]). *)
Definition truthy (v : json) : bool :=
  match v with
  | JNull => false
  | JBool b => b
  | JNum n => negb (n =? 0)
  | JStr s => negb (String.eqb s EmptyString)
  | JArr items => match items with [] => false | _ => true end
  | JObj fields => match fields with [] => false | _ => true end
  end.

(** What a Python call can raise.  [except Exception] catches the first two
    only: [KeyboardInterrupt], [SystemExit] and [GeneratorExit] derive from
    [BaseException] directly. *)
Inductive exn :=
| KeyError (key : string)
| ExceptionInstance (cls text : string)
| BaseExceptionInstance (cls text : string).

(** [isinstance(e, Exception)] *)
Definition is_Exception (e : exn) : bool :=
  match e with
  | KeyError _ | ExceptionInstance _ _ => true
  | BaseExceptionInstance _ _ => false
  end.

(** ** Python [str] methods *)

Module Str.

(** [s.startswith(p)] *)
Fixpoint startswith (p s : string) : bool :=
  match p, s with
  | EmptyString, _ => true
  | String a p', String b s' => if Ascii.eqb a b then startswith p' s' else false
  | String _ _, EmptyString => false
  end.

(** [p in s] *)
Fixpoint contains (p s : string) : bool :=
  startswith p s ||
  match s with
  | EmptyString => false
  | String _ s' => contains p s'
  end.

(** [s.replace(old, new)] for a non-empty [old]: scan from the left; where
    [old] starts, emit [new] and skip the [skip] remaining characters of
    the occurrence; elsewhere copy the character. *)
Fixpoint replace_scan (old new : string) (skip : nat) (s : string) : string :=
  match s with
  | EmptyString => EmptyString
  | String c s' =>
      match skip with
      | S k => replace_scan old new k s'
      | O =>
          if startswith old s
          then new +:+ replace_scan old new (Nat.pred (String.length old)) s'
          else String c (replace_scan old new O s')
      end
  end.

(** [s.replace(old, new)] for the empty [old]: [new] before every character
    and at the end. *)
Fixpoint replace_empty (new s : string) : string :=
  match s with
  | EmptyString => new
  | String c s' => new +:+ String c (replace_empty new s')
  end.

(** [s.replace(old, new)] *)
Definition replace (s old new : string) : string :=
  match old with
  | EmptyString => replace_empty new s
  | String _ _ => replace_scan old new O s
  end.

(** [c.isspace()] for a code point below 256: TAB, LF, VT, FF, CR, the
    separators FS, GS, RS, US, the space, NEL and the no-break space. *)
Definition isspace (c : Ascii.ascii) : bool :=
  let n := Ascii.nat_of_ascii c in
  ((9 <=? n) && (n <=? 13) || (28 <=? n) && (n <=? 32)
   || (n =? 133) || (n =? 160))%nat.

(** Puts a finished word in front of the words that follow it. *)
Definition cons_word (w : string) (ws : list string) : list string :=
  match w with
  | EmptyString => ws
  | String _ _ => w :: ws
  end.

(** The word in progress at the start of [s] and the words after it. *)
Fixpoint words_from (s : string) : string * list string :=
  match s with
  | EmptyString => (EmptyString, [])
  | String c s' =>
      let (w, ws) := words_from s' in
      if isspace c then (EmptyString, cons_word w ws) else (String c w, ws)
  end.

(** [s.split()]: the maximal runs of characters that are not white space. *)
Definition split (s : string) : list string :=
  let (w, ws) := words_from s in cons_word w ws.

(** [sep.join(words)] *)
Fixpoint join (sep : string) (words : list string) : string :=
  match words with
  | [] => EmptyString
  | [w] => w
  | w :: ws => w +:+ sep +:+ join sep ws
  end.

End Str.

(** ** Protocol messages ([airbyte_protocol]) *)

(** Modelled from the spec: the message types that the sources import from
    [airbyte_protocol] and [airbyte_cdk.models], whose declarations are not
    part of the sources.  The fields are the ones the sources set and the
    external interface of the specification lists. *)
Module Protocol.

Inductive SyncMode := full_refresh | incremental.

Inductive Status := SUCCEEDED | FAILED.

Record AirbyteStream := {
  name : string;
  json_schema : json;
  supported_sync_modes : list SyncMode;
  source_defined_cursor : option bool;
  default_cursor_field : option (list string)
}.

Record ConfiguredAirbyteStream := {
  stream : AirbyteStream;
  sync_mode : SyncMode
}.

Record AirbyteRecordMessage := {
  record_stream : string;
  record_data : json;
  emitted_at : Z
}.

(** [level] is the name of one of the six levels of the protocol, the
    names that [valid_log_types] lists in [airbyte_cdk/logger.py]. *)
Record AirbyteLogMessage := {
  level : string;
  message : string
}.

Record AirbyteConnectionStatus := {
  status : Status;
  status_message : option string
}.

Inductive AirbyteMessage :=
| RECORD (record : AirbyteRecordMessage)
| STATE (data : gmap string json)
| LOG (log : AirbyteLogMessage)
| CATALOG (streams : list AirbyteStream)
| CONNECTION_STATUS (connectionStatus : AirbyteConnectionStatus).

#[global] Instance SyncMode_eq_dec : EqDecision SyncMode.
Proof. solve_decision. Defined.

End Protocol.

Import Protocol.

(** ** [airbyte_cdk/logger.py] *)

Module Logger.

Definition TRACE_LEVEL_NUM : Z := 5.

(** The numeric levels of the [logging] module. *)
Definition logging_FATAL : Z := 50.
Definition logging_ERROR : Z := 40.
Definition logging_WARNING : Z := 30.
Definition logging_INFO : Z := 20.
Definition logging_DEBUG : Z := 10.

(** A [logging.LogRecord]: its level and its message text.  With the
    ["%(message)s"] format of [LOGGING_CONFIG] and no exception attached,
    [logging.Formatter.format] renders a record as this text. *)
Record LogRecord := {
  levelno : Z;
  msg : string
}.

Definition Formatter_format (record : LogRecord) : string := msg record.

(** [AirbyteLogFormatter.level_mapping] *)
Definition level_mapping : gmap Z string :=
  list_to_map
    [ (logging_FATAL, "FATAL"); (logging_ERROR, "ERROR");
      (logging_WARNING, "WARN"); (logging_INFO, "INFO");
      (logging_DEBUG, "DEBUG"); (TRACE_LEVEL_NUM, "TRACE") ].

Definition mask : string := "****".

(** [AirbyteLogFormatter.update_secrets]: the class attribute [_secrets]
    is the only state of the formatter; it is passed to [format]. *)
Definition update_secrets (secrets _secrets : list string) : list string := secrets.

(** The loop over [_secrets] in [format]. *)
Definition redact (_secrets : list string) (message : string) : string :=
  fold_left (fun message secret => Str.replace message secret mask) _secrets message.

(** [AirbyteLogFormatter.format]: the message that is then serialised by
    [log_message.json(exclude_unset=True)]. *)
Definition format (_secrets : list string) (record : LogRecord) : AirbyteMessage :=
  let message := Formatter_format record in
  let airbyte_level := default "INFO" (level_mapping !! levelno record) in
  let message := redact _secrets message in
  LOG {| level := airbyte_level; message := message |}.

Definition valid_log_types : list string :=
  ["FATAL"; "ERROR"; "WARN"; "INFO"; "DEBUG"; "TRACE"].

(** [first_word in self.valid_log_types], where [first_word] is [None]
    when the message has no word. *)
Definition in_valid_log_types (first_word : option string) : bool :=
  match first_word with
  | Some w => bool_decide (w ∈ valid_log_types)
  | None => false
  end.

(** *** [AirbyteLogger]

    [abstract_source.py] takes its logger from [base_python.logger]; the
    class of that name in [airbyte_cdk/logger.py] stands for it. *)

(** [AirbyteLogger.log]: the message printed on standard output. *)
Definition log (level message : string) : AirbyteMessage :=
  LOG {| level := level; message := message |}.

(** [AirbyteLogger.log_by_prefix] *)
Definition log_by_prefix (message default_level : string) : AirbyteMessage :=
  let split_line := Str.split message in
  let first_word := head split_line in
  if in_valid_log_types first_word
  then log (default EmptyString first_word) (Str.join " " (tail split_line))
  else log default_level message.

Definition error (message : string) : AirbyteMessage := log "ERROR" message.
Definition info (message : string) : AirbyteMessage := log "INFO" message.

(** [AirbyteLogger.exception]; [format_exc] is the text of
    [traceback.format_exc()] for the exception being handled. *)
Definition exception (format_exc : string) (message : string) : AirbyteMessage :=
  error (message +:+ String (Ascii.ascii_of_nat 10) format_exc).

(** *** [AirbyteNativeLogger] *)

(** The name table of the [logging] module once [init_logger] has
    registered ["TRACE"]. *)
Definition _nameToLevel : gmap string Z :=
  list_to_map
    [ ("CRITICAL", 50); ("FATAL", logging_FATAL); ("ERROR", logging_ERROR);
      ("WARN", logging_WARNING); ("WARNING", logging_WARNING);
      ("INFO", logging_INFO); ("DEBUG", logging_DEBUG); ("NOTSET", 0);
      ("TRACE", TRACE_LEVEL_NUM) ].

(** [logging.getLevelName] applied to a name: the number of a registered
    name, and the text ["Level <name>"] for any other. *)
Definition getLevelName (level_name : string) : Z + string :=
  match _nameToLevel !! level_name with
  | Some n => inl n
  | None => inr ("Level " +:+ level_name)
  end.

(** [logging.Logger.log] of a logger whose threshold is [TRACE_LEVEL_NUM]
    (set by [init_logger]): a level that is not an integer raises
    [TypeError]; a record below the threshold is dropped; any other is
    handed to the formatter. *)
Definition Logger_log (_secrets : list string) (log_level : Z + string) (message : string)
  : exn + option AirbyteMessage :=
  match log_level with
  | inr _ => inl (ExceptionInstance "TypeError" "level must be an integer")
  | inl n =>
      if TRACE_LEVEL_NUM <=? n
      then inr (Some (format _secrets {| levelno := n; msg := message |}))
      else inr None
  end.

(** [AirbyteNativeLogger.log_by_prefix] *)
Definition native_log_by_prefix (_secrets : list string) (message default_level : string)
  : exn + option AirbyteMessage :=
  let split_line := Str.split message in
  let first_word := head split_line in
  if in_valid_log_types first_word
  then Logger_log _secrets (getLevelName (default EmptyString first_word))
         (Str.join " " (tail split_line))
  else
    let default_level :=
      if bool_decide (default_level ∈ valid_log_types) then default_level else "INFO" in
    Logger_log _secrets (getLevelName default_level) message.

End Logger.

(** ** [base_python/sdk/streams/core.py] *)

Module Streams.

(** [cursor_field] is a field name or a path of field names. *)
Inductive cursor_field_t :=
| CursorName (field : string)
| CursorPath (path : list string).

(** Modelled from the spec: the class [IncrementalStream] of
    [base_python.sdk.streams.core] is imported by [abstract_source.py] and
    its declaration is not part of the sources; these are the members the
    stream capability adds for incremental streams.  [get_updated_state]
    is a reducer without side effects; it can raise. *)
Record IncrementalStream := {
  cursor_field : cursor_field_t;
  source_defined_cursor : bool;
  continuously_save_state : bool;
  get_updated_state : json -> json -> exn + json
}.

(** Modelled from the spec: the class [Stream] of
    [base_python.sdk.streams.core], whose declaration is not part of the
    sources.  [read_stream stream_state] is the finite sequence of records
    the stream produces, ended by exhaustion ([None]) or by an exception
    raised while the next record is pulled.  [as_incremental] is [Some]
    exactly when [isinstance(stream, IncrementalStream)]. *)
Record Stream := {
  get_json_schema : json;
  read_stream : json -> list json * option exn;
  as_incremental : option IncrementalStream
}.

End Streams.

(** ** [base_python/sdk/abstract_source.py] *)

Module AbstractSource.

Import Streams.

(** What the interpreter and the standard library contribute to a run:
    [timestamp k] is the float returned by the [k]-th evaluation of
    [datetime.now().timestamp()], a rational number; [format_exc e] is the
    text of [traceback.format_exc()] while [e] is handled; [str v] is
    Python's [str(v)]. *)
Record Runtime := {
  timestamp : nat -> QArith_base.Q;
  format_exc : exn -> string;
  str : json -> string
}.

(** The abstract members of [AbstractSource] and its [name] property. *)
Record Source := {
  name : string;
  check_connection : json -> exn + (bool * json);
  streams : json -> list (string * Stream)
}.

(** [int(x)] of a float: truncation towards zero. *)
Definition int (x : QArith_base.Q) : Z :=
  Z.quot (QArith_base.Qnum x) (Z.pos (QArith_base.Qden x)).

(** *** Generators

    What running a generator does, in order: it yields messages, and the
    logger prints lines. *)
Inductive event :=
| Yield (m : AirbyteMessage)
| Print (m : AirbyteMessage).

(** The mutable objects of a run: the dict [total_state] that [read]
    allocates and hands to every [_read_stream] as [state], and the number
    of clock readings made so far. *)
Record store := {
  total_state : gmap string json;
  clock_reads : nat
}.

Inductive outcome (A : Type) :=
| Returned (a : A)
| Raised (e : exn).
Arguments Returned {A} a.
Arguments Raised {A} e.

(** A piece of generator code: from a store, the events it produces, the
    store it leaves and how it ends. *)
Definition Gen (A : Type) : Type := store -> list event * store * outcome A.

Definition ret {A} (a : A) : Gen A := fun s => ([], s, Returned a).

Definition bind {A B} (m : Gen A) (k : A -> Gen B) : Gen B := fun s =>
  match m s with
  | (out, s1, Returned a) =>
      match k a s1 with
      | (out2, s2, r) => (out ++ out2, s2, r)
      end
  | (out, s1, Raised e) => (out, s1, Raised e)
  end.

Declare Scope gen_scope.
Delimit Scope gen_scope with gen.
Notation "x <- m ;; k" := (bind m (fun x => k))
  (at level 20, m at level 99, k at level 200, only parsing) : gen_scope.
Notation "m ;; k" := (bind m (fun _ => k))
  (at level 100, k at level 200, only parsing, right associativity) : gen_scope.
Local Open Scope gen_scope.

(** [raise e] *)
Definition raise {A} (e : exn) : Gen A := fun s => ([], s, Raised e).

(** The value of a call that returns or raises. *)
Definition call {A} (r : exn + A) : Gen A :=
  match r with
  | inl e => raise e
  | inr a => ret a
  end.

(** [yield m] *)
Definition yield (m : AirbyteMessage) : Gen unit := fun s => ([Yield m], s, Returned tt).

(** A call of an [AirbyteLogger] method, which prints [m]. *)
Definition print (m : AirbyteMessage) : Gen unit := fun s => ([Print m], s, Returned tt).

(** The store after one more clock reading. *)
Definition tick (s : store) : store :=
  {| total_state := total_state s; clock_reads := S (clock_reads s) |}.

(** The store after [state[key] = value]. *)
Definition merged (key : string) (value : json) (s : store) : store :=
  {| total_state := <[key := value]> (total_state s); clock_reads := clock_reads s |}.

(** [datetime.now().timestamp()] *)
Definition now_timestamp (rt : Runtime) : Gen QArith_base.Q := fun s =>
  ([], tick s, Returned (timestamp rt (clock_reads s))).

(** [state.get(key)] *)
Definition state_get (key : string) : Gen (option json) := fun s =>
  ([], s, Returned (total_state s !! key)).

(** [state[key] = value] *)
Definition state_setitem (key : string) (value : json) : Gen unit := fun s =>
  ([], merged key value s, Returned tt).

(** The dict [state] as it is when a message that holds it is yielded. *)
Definition state_snapshot : Gen (gmap string json) := fun s =>
  ([], s, Returned (total_state s)).

(** [try: body except Exception as e: handler(e)] *)
Definition try_except_Exception {A} (body : Gen A) (handler : exn -> Gen A) : Gen A := fun s =>
  match body s with
  | (out, s1, Raised e) =>
      if is_Exception e
      then match handler e s1 with
           | (out2, s2, r) => (out ++ out2, s2, r)
           end
      else (out, s1, Raised e)
  | (out, s1, Returned a) => (out, s1, Returned a)
  end.

(** [mapping[key]] on the dict returned by [streams]. *)
Definition getitem {V} (mapping : list (string * V)) (key : string) : exn + V :=
  match (list_to_map mapping : gmap string V) !! key with
  | Some v => inr v
  | None => inl (KeyError key)
  end.

(** *** [discover] *)

(** The body of the loop of [discover], for one item of
    [self.streams(config).items()]. *)
Definition discover_stream (item : string * Stream) : AirbyteStream :=
  let (name, stream) := item in
  let supported_sync_modes := [full_refresh] in
  match as_incremental stream with
  | Some incremental_stream =>
      {| Protocol.name := name;
         json_schema := get_json_schema stream;
         supported_sync_modes := supported_sync_modes ++ [incremental];
         Protocol.source_defined_cursor := Some (source_defined_cursor incremental_stream);
         default_cursor_field :=
           Some (match cursor_field incremental_stream with
                 | CursorName field => [field]
                 | CursorPath path => path
                 end) |}
  | None =>
      {| Protocol.name := name;
         json_schema := get_json_schema stream;
         supported_sync_modes := supported_sync_modes;
         Protocol.source_defined_cursor := None;
         default_cursor_field := None |}
  end.

(** [AbstractSource.discover]: the [streams] of the catalog it returns. *)
Definition discover (self : Source) (config : json) : list AirbyteStream :=
  fold_left (fun streams item => streams ++ [discover_stream item])
    (streams self config) [].

(** *** [check] *)

(** [AbstractSource.check] *)
Definition check (self : Source) (rt : Runtime) (config : json)
  : exn + AirbyteConnectionStatus :=
  match check_connection self config with
  | inl e => inl e
  | inr (alive, error) =>
      if negb alive
      then inr {| status := FAILED; status_message := Some (str rt error) |}
      else inr {| status := SUCCEEDED; status_message := None |}
  end.

(** *** [read] *)

(** The [for record in ...] loop of [_read_stream].  [use_incremental] is
    the incremental view of the stream when [use_incremental] holds in the
    source, [None] otherwise; [records] is what is left of the sequence
    returned by [read_stream].  Returns [stream_state] as the loop leaves
    it. *)
Fixpoint read_loop (rt : Runtime) (stream_name : string)
    (use_incremental : option IncrementalStream)
    (records : list json) (raised : option exn)
    (stream_state : json) (record_counter : Z) : Gen json :=
  match records with
  | [] =>
      match raised with
      | Some e => raise e
      | None => ret stream_state
      end
  | record :: records =>
      t <- now_timestamp rt ;;
      let now := int t * 1000 in
      let message :=
        {| record_stream := stream_name; record_data := record; emitted_at := now |} in
      yield (RECORD message) ;;
      let record_counter := record_counter + 1 in
      stream_state <-
        match use_incremental with
        | Some stream_instance =>
            stream_state <- call (get_updated_state stream_instance stream_state record) ;;
            (if continuously_save_state stream_instance && (record_counter mod 100 =? 0)
             then
               state_setitem stream_name stream_state ;;
               state <- state_snapshot ;;
               yield (STATE state)
             else ret tt) ;;
            ret stream_state
        | None => ret stream_state
        end ;;
      read_loop rt stream_name use_incremental records raised stream_state record_counter
  end.

(** Truth value of [state.get(stream_name)], which is [None] for a
    missing key. *)
Definition truthy_opt (v : option json) : bool :=
  match v with
  | Some v => truthy v
  | None => false
  end.

(** [AbstractSource._read_stream]; the dict [state] is the one of the
    store. *)
Definition _read_stream (self : Source) (rt : Runtime) (config : json)
    (configured_stream : ConfiguredAirbyteStream) : Gen unit :=
  let stream_name := Protocol.name (stream configured_stream) in
  stream_instance <- call (getitem (streams self config) stream_name) ;;
  let use_incremental :=
    if decide (sync_mode configured_stream = incremental)
    then as_incremental stream_instance else None in
  state_value <- state_get stream_name ;;
  stream_state <-
    (if bool_decide (is_Some use_incremental) && truthy_opt state_value
     then
       print (Logger.info ("Set state of " +:+ stream_name +:+ " stream to "
                           +:+ str rt (default JNull state_value))) ;;
       ret (default JNull state_value)
     else ret (JObj [])) ;;
  print (Logger.info ("Syncing " +:+ stream_name +:+ " stream")) ;;
  let (records, raised) := read_stream stream_instance stream_state in
  stream_state <-
    read_loop rt stream_name use_incremental records raised stream_state 0 ;;
  if bool_decide (is_Some use_incremental) && truthy stream_state
  then
    state_setitem stream_name stream_state ;;
    state <- state_snapshot ;;
    yield (STATE state)
  else ret tt.

(** The [for configured_stream in catalog.streams] loop of [read]. *)
Fixpoint read_streams (self : Source) (rt : Runtime) (config : json)
    (catalog : list ConfiguredAirbyteStream) : Gen unit :=
  match catalog with
  | [] => ret tt
  | configured_stream :: catalog =>
      try_except_Exception
        (_read_stream self rt config configured_stream)
        (fun e =>
           print (Logger.exception (format_exc rt e)
                    ("Encountered an exception while reading stream " +:+ name self)) ;;
           raise e) ;;
      read_streams self rt config catalog
  end.

(** The body of [AbstractSource.read], once [total_state] is allocated. *)
Definition read_body (self : Source) (rt : Runtime) (config : json)
    (catalog : list ConfiguredAirbyteStream) : Gen unit :=
  print (Logger.info ("Starting syncing " +:+ name self)) ;;
  read_streams self rt config catalog ;;
  print (Logger.info ("Finished syncing " +:+ name self)).

(** [AbstractSource.read]: [total_state] is a deep copy of [state or {}];
    the run starts with no clock reading made. *)
Definition read (self : Source) (rt : Runtime) (config : json)
    (catalog : list ConfiguredAirbyteStream) (state : option (gmap string json))
  : list event * store * outcome unit :=
  let state := default ∅ state in
  read_body self rt config catalog {| total_state := state; clock_reads := 0 |}.

(** The messages a run yields, in order. *)
Definition yielded (out : list event) : list AirbyteMessage :=
  omap (fun ev => match ev with Yield m => Some m | Print _ => None end) out.

End AbstractSource.

(** ** Vocabulary of the properties *)

Module Words.

(** Every character of [s] satisfies [P]. *)
Fixpoint all_chars (P : Ascii.ascii -> bool) (s : string) : bool :=
  match s with
  | EmptyString => true
  | String c s' => P c && all_chars P s'
  end.

Definition star : Ascii.ascii := Ascii.ascii_of_nat 42.

(** [s] has no character of the mask. *)
Definition star_free (s : string) : bool :=
  all_chars (fun c => negb (Ascii.eqb c star)) s.

Definition all_space (s : string) : bool := all_chars Str.isspace s.

Definition space_free (s : string) : bool :=
  all_chars (fun c => negb (Str.isspace c)) s.

(** [s] is empty or starts with white space. *)
Definition word_end (s : string) : bool :=
  match s with
  | EmptyString => true
  | String c _ => Str.isspace c
  end.

(** [old] starts nowhere inside [p] when [rest] follows [p]. *)
Fixpoint first_at (old p rest : string) : bool :=
  match p with
  | EmptyString => true
  | String _ p' => negb (Str.startswith old (p +:+ rest)) && first_at old p' rest
  end.

(** [w] is the first white-space delimited token of [message], and [rest]
    is what follows it. *)
Definition first_token (message w rest : string) : Prop :=
  exists sp, message = sp +:+ w +:+ rest
    /\ all_space sp = true /\ w <> EmptyString /\ space_free w = true
    /\ word_end rest = true.

(** The text of a [LOG] message. *)
Definition log_text (m : AirbyteMessage) : string :=
  match m with
  | LOG l => message l
  | _ => EmptyString
  end.

(** The text a record with message [text] is formatted to. *)
Definition formatted (_secrets : list string) (text : string) : string :=
  log_text (Logger.format _secrets
              {| Logger.levelno := Logger.logging_INFO; Logger.msg := text |}).

(** Replacing an occurrence as the specification words it: the occurrence
    of [secret] that stands between [p] and [q] in the rendered message is
    replaced with the mask token, so that the formatted text is what [p] is
    formatted to, the mask, and what [q] is formatted to. *)
Definition occurrence_masked (_secrets : list string) (p secret q : string) : Prop :=
  formatted _secrets (p +:+ secret +:+ q)
  = formatted _secrets p +:+ Logger.mask +:+ formatted _secrets q.

Import AbstractSource.

(** The aggregate states carried by the [STATE] messages of a run, in
    order. *)
Definition states (out : list event) : list (gmap string json) :=
  omap (fun ev => match ev with Yield (STATE data) => Some data | _ => None end) out.



(** The time stamp of a yielded record is a clock reading cut to whole
    seconds, in milliseconds. *)
Definition whole_second (rt : Runtime) (ev : event) : Prop :=
  match ev with
  | Yield (RECORD r) => exists k, emitted_at r = int (timestamp rt k) * 1000
  | _ => True
  end.

(** The [RECORD] event of a record of [stream_name] that is pulled when
    the store is [s]. *)
Definition record_event (rt : Runtime) (stream_name : string) (record : json) (s : store)
  : event :=
  Yield (RECORD {| record_stream := stream_name; record_data := record;
                   emitted_at := int (timestamp rt (clock_reads s)) * 1000 |}).

(** [use_incremental] of [_read_stream], as the incremental view of the
    stream. *)
Definition use_incremental_of (configured_stream : ConfiguredAirbyteStream)
    (stream_instance : Streams.Stream) : option Streams.IncrementalStream :=
  if decide (sync_mode configured_stream = incremental)
  then Streams.as_incremental stream_instance else None.

(** Whether [_read_stream] takes the state of the stream from the
    aggregate. *)
Definition seeded (use_incremental : option Streams.IncrementalStream)
    (stream_name : string) (s : store) : bool :=
  bool_decide (is_Some use_incremental) && truthy_opt (total_state s !! stream_name).

(** The [stream_state] that [_read_stream] hands to [read_stream]. *)
Definition seed_state (use_incremental : option Streams.IncrementalStream)
    (stream_name : string) (s : store) : json :=
  if seeded use_incremental stream_name s
  then default JNull (total_state s !! stream_name) else JObj [].

(** The lines [_read_stream] logs before it pulls the first record. *)
Definition opening (rt : Runtime) (use_incremental : option Streams.IncrementalStream)
    (stream_name : string) (s : store) : list event :=
  (if seeded use_incremental stream_name s
   then [Print (Logger.info ("Set state of " +:+ stream_name +:+ " stream to "
                             +:+ str rt (default JNull (total_state s !! stream_name))))]
   else [])
  ++ [Print (Logger.info ("Syncing " +:+ stream_name +:+ " stream"))].

Definition is_record (m : AirbyteMessage) : bool :=
  match m with RECORD _ => true | _ => false end.

Definition is_state (m : AirbyteMessage) : bool :=
  match m with STATE _ => true | _ => false end.

Definition count_records (msgs : list AirbyteMessage) : nat :=
  length (filter (fun m => is_record m = true) msgs).

Definition count_states (msgs : list AirbyteMessage) : nat :=
  length (filter (fun m => is_state m = true) msgs).

(** The events of pulling [records] one after the other from the store
    [s], when nothing but the records is emitted. *)
Fixpoint record_events (rt : Runtime) (stream_name : string) (records : list json)
    (s : store) : list event :=
  match records with
  | [] => []
  | record :: records =>
      record_event rt stream_name record s
      :: record_events rt stream_name records (tick s)
  end.


(** Two runs emit the same states, leave the same aggregate and end the
    same way. *)
Definition same_states {A} (run1 run2 : list event * store * outcome A) : Prop :=
  states run1.1.1 = states run2.1.1
  /\ total_state run1.1.2 = total_state run2.1.2
  /\ run1.2 = run2.2.

(** Whether a [STATE] message comes right after the [N]-th [RECORD]
    message of [msgs], counting from 1. *)
Fixpoint state_follows (N : nat) (msgs : list AirbyteMessage) : bool :=
  match msgs with
  | [] => false
  | m :: msgs =>
      if is_record m
      then match N with
           | O => false
           | S O => match msgs with m' :: _ => is_state m' | [] => false end
           | S N => state_follows N msgs
           end
      else state_follows N msgs
  end.

(** The line [logger.exception] prints in [read] for the exception [e]. *)
Definition exception_line (self : Source) (rt : Runtime) (e : exn) : event :=
  Print (Logger.exception (format_exc rt e)
           ("Encountered an exception while reading stream " +:+ name self)).

(** A run that ends with an exception has logged it, with its trace, as
    the last thing it did. *)
Definition fault_logged (self : Source) (rt : Runtime)
    (run : list event * store * outcome unit) : Prop :=
  forall e, run.2 = Raised e -> last run.1.1 = Some (exception_line self rt e).

(** The store [read] starts from. *)
Definition initial (state : option (gmap string json)) : store :=
  {| total_state := default ∅ state; clock_reads := 0 |}.

End Words.

(** ** A sample connector, to run the definitions on *)

Module Demo.

Import Streams AbstractSource.

(** The clock reads 1700000000.25 s first, and 1.5 s more every time. *)
Definition rt : Runtime :=
  {| timestamp := fun k => QArith_base.Qmake (1700000000250 + 1500 * Z.of_nat k) 1000;
     format_exc := fun e =>
       match e with
       | KeyError key => "Traceback (most recent call last): KeyError: " +:+ key
       | ExceptionInstance cls text | BaseExceptionInstance cls text =>
           "Traceback (most recent call last): " +:+ cls +:+ ": " +:+ text
       end;
     str := fun v =>
       match v with
       | JStr s => s
       | JNull => "None"
       | _ => "{...}"
       end |}.

(** An incremental stream of 250 records that checkpoints as it goes; its
    cursor is the last record seen. *)
Definition events_incremental : IncrementalStream :=
  {| cursor_field := CursorName "id";
     source_defined_cursor := true;
     continuously_save_state := true;
     get_updated_state := fun _ record => inr (JObj [("id", record)]) |}.

Definition events : Stream :=
  {| get_json_schema := JObj [("type", JStr "object")];
     read_stream := fun _ => (map (fun i => JNum (Z.of_nat i)) (seq 1 250), None);
     as_incremental := Some events_incremental |}.

(** A stream without incremental support. *)
Definition users : Stream :=
  {| get_json_schema := JObj [("type", JStr "object")];
     read_stream := fun _ => ([JStr "ann"; JStr "bob"], None);
     as_incremental := None |}.

(** A stream whose second pull fails. *)
Definition flaky : Stream :=
  {| get_json_schema := JObj [];
     read_stream := fun _ =>
       ([JNum 1], Some (ExceptionInstance "ConnectionError" "reset by peer"));
     as_incremental := None |}.

(** A stream interrupted from the keyboard during its second pull. *)
Definition interrupted : Stream :=
  {| get_json_schema := JObj [];
     read_stream := fun _ =>
       ([JNum 1], Some (BaseExceptionInstance "KeyboardInterrupt" EmptyString));
     as_incremental := None |}.

Definition source : Source :=
  {| name := "DemoSource";
     check_connection := fun config =>
       match config with
       | JNull => inr (false, JStr "bad password")
       | _ => inr (true, JNull)
       end;
     streams := fun _ =>
       [("events", events); ("users", users); ("flaky", flaky);
        ("interrupted", interrupted)] |}.

Definition configured (stream_name : string) (mode : SyncMode) : ConfiguredAirbyteStream :=
  {| stream := {| Protocol.name := stream_name; json_schema := JObj [];
                  supported_sync_modes := [full_refresh];
                  Protocol.source_defined_cursor := None;
                  default_cursor_field := None |};
     sync_mode := mode |}.

End Demo.

(** ** The rest of [airbyte_cdk/logger.py] *)

Module LoggerRest.

Import Logger.






End LoggerRest.

(** ** A second sample connector *)

Module Demo2.

Import Streams AbstractSource.

(** An incremental stream that has nothing to give. *)
Definition idle : Stream :=
  {| get_json_schema := JObj [];
     read_stream := fun _ => ([], None);
     as_incremental := Some Demo.events_incremental |}.

(** An incremental stream of 150 records that checkpoints as it goes and
    whose state cannot be folded at the 120th record. *)
Definition choking_incremental : IncrementalStream :=
  {| cursor_field := CursorName "id";
     source_defined_cursor := true;
     continuously_save_state := true;
     get_updated_state := fun _ record =>
       match record with
       | JNum 120 => inl (ExceptionInstance "ValueError" "bad cursor")
       | _ => inr (JObj [("id", record)])
       end |}.

Definition choking : Stream :=
  {| get_json_schema := JObj [];
     read_stream := fun _ => (map (fun i => JNum (Z.of_nat i)) (seq 1 150), None);
     as_incremental := Some choking_incremental |}.

Definition source : Source :=
  {| name := "IdleSource";
     check_connection := fun _ => inr (true, JNull);
     streams := fun _ => [("idle", idle); ("choking", choking)] |}.

End Demo2.

(** ** More vocabulary *)

Module MoreWords.

Import AbstractSource Words.

(** The level of a [LOG] message. *)
Definition log_level (m : AirbyteMessage) : string :=
  match m with
  | LOG l => level l
  | _ => EmptyString
  end.

(** The [RECORD] messages of a run, in order. *)
Definition records_of (out : list event) : list AirbyteRecordMessage :=
  omap (fun ev => match ev with Yield (RECORD r) => Some r | _ => None end) out.

(** The names of the configured streams of a catalog. *)
Definition catalog_names (catalog : list ConfiguredAirbyteStream) : list string :=
  map (fun configured_stream => Protocol.name (stream configured_stream)) catalog.

(** No more than [bound] [RECORD] messages of [msgs] come without a [STATE]
    message between them, and no more than [first] before the first [STATE]
    message. *)
Fixpoint records_between_states (first bound : nat) (msgs : list AirbyteMessage) : Prop :=
  match msgs with
  | [] => True
  | m :: msgs =>
      if is_record m
      then match first with
           | O => False
           | S first => records_between_states first bound msgs
           end
      else if is_state m then records_between_states bound bound msgs
      else records_between_states first bound msgs
  end.

(** [get_updated_state] folded over [records] from [stream_state], as long
    as it does not raise. *)
Fixpoint fold_state (incremental_stream : Streams.IncrementalStream)
    (stream_state : json) (records : list json) : exn + json :=
  match records with
  | [] => inr stream_state
  | record :: records =>
      match Streams.get_updated_state incremental_stream stream_state record with
      | inl e => inl e
      | inr stream_state => fold_state incremental_stream stream_state records
      end
  end.

(** The stream names [rs] come in the order of [names]: all of the first
    name, then all of the next, and so on. *)
Inductive in_catalog_order : list string -> list string -> Prop :=
| order_end names : in_catalog_order names []
| order_same stream_name names rs :
    in_catalog_order (stream_name :: names) rs ->
    in_catalog_order (stream_name :: names) (stream_name :: rs)
| order_next stream_name names rs :
    in_catalog_order names rs -> in_catalog_order (stream_name :: names) rs.

(** The clock never goes back. *)
Definition clock_monotone (rt : Runtime) : Prop :=
  forall i j : nat, (i <= j)%nat -> QArith_base.Qle (timestamp rt i) (timestamp rt j).

End MoreWords.

(** ** Vocabulary of the faults and of the cursor states *)

Module RunWords.

Import Streams AbstractSource Words MoreWords.



(** The number of records of [records], from the first, whose state
    [get_updated_state] folds before it raises: all of them when it does
    not raise. *)
Fixpoint folded_count (incremental_stream : Streams.IncrementalStream)
    (stream_state : json) (records : list json) : nat :=
  match records with
  | [] => 0
  | record :: records =>
      match Streams.get_updated_state incremental_stream stream_state record with
      | inl _ => 0
      | inr stream_state => S (folded_count incremental_stream stream_state records)
      end
  end.

(** The fault [e] is raised while the records of a stream are pulled, by
    the pull that follows the last of [records], every state before having
    been folded. *)
Definition pull_fault (use_incremental : option Streams.IncrementalStream)
    (stream_state : json) (records : list json) (raised : option exn) (e : exn) : Prop :=
  raised = Some e
  /\ match use_incremental with
     | Some incremental_stream =>
         exists final, fold_state incremental_stream stream_state records = inr final
     | None => True
     end.

(** The fault [e] is raised while the cursor state is folded, by
    [get_updated_state] on the record at index [k], the states of the [k]
    records before having been folded. *)
Definition fold_fault (use_incremental : option Streams.IncrementalStream)
    (stream_state : json) (records : list json) (k : nat) (e : exn) : Prop :=
  exists incremental_stream cursor record,
    use_incremental = Some incremental_stream
    /\ fold_state incremental_stream stream_state (take k records) = inr cursor
    /\ records !! k = Some record
    /\ Streams.get_updated_state incremental_stream cursor record = inl e.

(** The number of checkpoints of a read in which the states of [folded]
    records were folded. *)
Definition checkpoints (use_incremental : option Streams.IncrementalStream)
    (folded : nat) : Z :=
  match use_incremental with
  | Some incremental_stream =>
      if Streams.continuously_save_state incremental_stream
      then Z.of_nat folded / 100 else 0
  | None => 0
  end.

(** The fault [e] ends the extraction of a stream after [n] of its records
    were yielded and the states of [folded] of them folded: it is raised by
    the pull after the last record, or by [get_updated_state] on the record
    at index [folded], which was yielded before. *)
Inductive extraction_fault (use_incremental : option IncrementalStream)
    (stream_state : json) (records : list json) (raised : option exn) (e : exn)
  : nat -> nat -> Prop :=
| fault_in_pull :
    pull_fault use_incremental stream_state records raised e ->
    extraction_fault use_incremental stream_state records raised e
      (length records) (length records)
| fault_in_fold (k : nat) :
    fold_fault use_incremental stream_state records k e ->
    extraction_fault use_incremental stream_state records raised e (S k) k.

End RunWords.

(** * Properties *)

(** ** Strings *)

Module StrFacts.
Import Str Words Logger.

Lemma append_cons (c : Ascii.ascii) (s t : string) : String c s +:+ t = String c (s +:+ t).
Proof. reflexivity. Qed.

Lemma append_nil_l (t : string) : EmptyString +:+ t = t.
Proof. reflexivity. Qed.

Lemma append_nil_r (s : string) : s +:+ EmptyString = s.
Proof. induction s as [|c s IH]; [reflexivity | by rewrite append_cons, IH]. Qed.

Lemma append_assoc (a b c : string) : (a +:+ b) +:+ c = a +:+ b +:+ c.
Proof. induction a as [|x a IH]; [reflexivity | by rewrite !append_cons, IH]. Qed.

Lemma startswith_append (p s : string) : startswith p (p +:+ s) = true.
Proof.
  induction p as [|a p IH]; [reflexivity |].
  rewrite append_cons. simpl. by rewrite Ascii.eqb_refl.
Qed.

Lemma startswith_nonempty_nil (p : string) :
  p <> EmptyString -> startswith p EmptyString = false.
Proof. by destruct p. Qed.

(** A word that has no star does not start where a star stands. *)
Lemma startswith_star (p s : string) :
  p <> EmptyString -> star_free p = true -> startswith p (String star s) = false.
Proof.
  destruct p as [|a p]; [done |]. intros _ Hp. simpl in *.
  apply andb_prop in Hp as [Ha _].
  destruct (Ascii.eqb a star); [done | reflexivity].
Qed.

Lemma contains_cons (p : string) (c : Ascii.ascii) (s : string) :
  contains p (String c s) = startswith p (String c s) || contains p s.
Proof. reflexivity. Qed.

Lemma mask_stars :
  mask = String star (String star (String star (String star EmptyString))).
Proof. reflexivity. Qed.

Lemma contains_mask (p s : string) :
  p <> EmptyString -> star_free p = true -> contains p (mask +:+ s) = contains p s.
Proof.
  intros Hne Hp. rewrite mask_stars, !append_cons, append_nil_l.
  rewrite !contains_cons, !startswith_star by done. reflexivity.
Qed.

(** A star-free word found at the start of the output of a scan was
    copied: it starts the input, where [old] does not start. *)
Lemma startswith_scan_copied (old q s : string) :
  q <> EmptyString -> star_free q = true ->
  startswith q (replace_scan old mask 0 s) = true ->
  startswith old s = false /\ startswith q s = true.
Proof.
  revert s. induction q as [|a q IH]; [done |]. intros s _ Hq Hpre.
  destruct s as [|c s]; [done |].
  cbn [replace_scan] in Hpre.
  destruct (startswith old (String c s)) eqn:Hold.
  - rewrite mask_stars, append_cons in Hpre.
    by rewrite startswith_star in Hpre.
  - split; [reflexivity |].
    cbn [startswith] in Hpre |- *.
    destruct (Ascii.eqb a c); [| done].
    destruct q as [|b q]; [reflexivity |].
    apply IH; [done | | done].
    simpl in Hq. by apply andb_prop in Hq as [_ ?].
Qed.

Lemma contains_false_cons (p : string) (c : Ascii.ascii) (s : string) :
  contains p (String c s) = false ->
  startswith p (String c s) = false /\ contains p s = false.
Proof. rewrite contains_cons. apply orb_false_elim. Qed.

(** After the replacement of a star-free [old], [old] is gone. *)
Lemma replace_scan_removes (old : string) (k : nat) (s : string) :
  old <> EmptyString -> star_free old = true ->
  contains old (replace_scan old mask k s) = false.
Proof.
  intros Hne Hsf. revert k. induction s as [|c s IH]; intros k.
  - simpl. by rewrite startswith_nonempty_nil.
  - cbn [replace_scan]. destruct k as [|k]; [| apply IH].
    destruct (startswith old (String c s)) eqn:Hold.
    + rewrite contains_mask by done. apply IH.
    + rewrite contains_cons, IH, orb_false_r.
      destruct (startswith old (String c (replace_scan old mask 0 s))) eqn:Hpre;
        [| reflexivity].
      assert (Hpre' : startswith old (replace_scan old mask 0 (String c s)) = true).
      { cbn [replace_scan]. by rewrite Hold. }
      apply startswith_scan_copied in Hpre' as [_ ?]; [congruence | done ..].
Qed.

(** A replacement does not make an absent star-free word appear. *)
Lemma replace_scan_absent (old p : string) (k : nat) (s : string) :
  p <> EmptyString -> star_free p = true ->
  contains p s = false -> contains p (replace_scan old mask k s) = false.
Proof.
  intros Hne Hsf. revert k. induction s as [|c s IH]; intros k Habs.
  - simpl. by rewrite startswith_nonempty_nil.
  - apply contains_false_cons in Habs as [Hhead Htail].
    cbn [replace_scan]. destruct k as [|k]; [| by apply IH].
    destruct (startswith old (String c s)) eqn:Hold.
    + rewrite contains_mask by done. by apply IH.
    + rewrite contains_cons, IH, orb_false_r by done.
      destruct (startswith p (String c (replace_scan old mask 0 s))) eqn:Hpre;
        [| reflexivity].
      assert (Hpre' : startswith p (replace_scan old mask 0 (String c s)) = true).
      { cbn [replace_scan]. by rewrite Hold. }
      apply startswith_scan_copied in Hpre' as [_ ?]; [congruence | done ..].
Qed.

Lemma replace_empty_starts (s : string) :
  exists t, replace_empty mask s = String star t.
Proof.
  destruct s; cbn [replace_empty]; rewrite mask_stars; [| rewrite append_cons]; eauto.
Qed.

Lemma replace_empty_absent (p s : string) :
  p <> EmptyString -> star_free p = true ->
  contains p s = false -> contains p (replace_empty mask s) = false.
Proof.
  intros Hne Hsf. induction s as [|c s IH]; intros Habs.
  - cbn [replace_empty]. rewrite <- (append_nil_r mask), contains_mask by done.
    simpl. by rewrite startswith_nonempty_nil.
  - apply contains_false_cons in Habs as [Hhead Htail].
    cbn [replace_empty]. rewrite contains_mask, contains_cons, IH, orb_false_r by done.
    destruct p as [|a p]; [done |].
    cbn [startswith] in Hhead |- *.
    destruct (Ascii.eqb a c); [| reflexivity].
    destruct p as [|b p]; [done |].
    destruct (replace_empty_starts s) as [t ->].
    apply startswith_star; [done |].
    simpl in Hsf. by apply andb_prop in Hsf as [_ ?].
Qed.

Lemma replace_absent (s old p : string) :
  p <> EmptyString -> star_free p = true ->
  contains p s = false -> contains p (replace s old mask) = false.
Proof.
  intros. destruct old; simpl.
  - by apply replace_empty_absent.
  - by apply replace_scan_absent.
Qed.

Lemma replace_removes (s old : string) :
  old <> EmptyString -> star_free old = true ->
  contains old (replace s old mask) = false.
Proof.
  intros Hne Hsf. destruct old as [|a old]; [done |].
  by apply replace_scan_removes.
Qed.

Lemma redact_absent (secrets : list string) (p message : string) :
  p <> EmptyString -> star_free p = true ->
  contains p message = false -> contains p (redact secrets message) = false.
Proof.
  intros Hne Hsf. revert message.
  induction secrets as [|secret secrets IH]; intros message Habs; [done |].
  simpl. apply IH. by apply replace_absent.
Qed.

Lemma redact_removes (secrets : list string) (secret message : string) :
  secret ∈ secrets -> secret <> EmptyString -> star_free secret = true ->
  contains secret (redact secrets message) = false.
Proof.
  intros Hin Hne Hsf. revert message.
  induction Hin as [secret secrets | secret other secrets Hin IH]; intros message; simpl.
  - apply redact_absent; [done ..|]. by apply replace_removes.
  - apply IH; done.
Qed.

(** Text in which [old] does not occur is left as it is. *)
Lemma replace_scan_id (old new s : string) :
  contains old s = false -> replace_scan old new 0 s = s.
Proof.
  induction s as [|c s IH]; [done |]. intros Habs.
  apply contains_false_cons in Habs as [Hhead Htail].
  cbn [replace_scan]. by rewrite Hhead, IH.
Qed.

Lemma replace_id (s old new : string) :
  old <> EmptyString -> contains old s = false -> replace s old new = s.
Proof. destruct old; [done |]. intros _. apply replace_scan_id. Qed.

Lemma redact_id (secrets : list string) (message : string) :
  Forall (fun secret => secret <> EmptyString /\ contains secret message = false)
    secrets ->
  redact secrets message = message.
Proof.
  induction 1 as [|secret secrets [Hne Habs] _ IH]; [done |].
  simpl. by rewrite replace_id.
Qed.

(** The characters of an occurrence that was found are skipped. *)
Lemma replace_scan_skip (old new x s : string) :
  replace_scan old new (String.length x) (x +:+ s) = replace_scan old new 0 s.
Proof. induction x as [|c x IH]; [reflexivity |]. by rewrite append_cons. Qed.

Lemma replace_scan_found (old new s : string) :
  old <> EmptyString ->
  replace_scan old new 0 (old +:+ s) = new +:+ replace_scan old new 0 s.
Proof.
  intros Hne. destruct old as [|a o]; [done |].
  pose proof (startswith_append (String a o) s) as Hs.
  rewrite append_cons in *. cbn [replace_scan]. rewrite Hs. f_equal.
  apply replace_scan_skip.
Qed.

Lemma replace_scan_first (old new p s : string) :
  old <> EmptyString -> first_at old p (old +:+ s) = true ->
  replace_scan old new 0 (p +:+ old +:+ s)
  = p +:+ new +:+ replace_scan old new 0 s.
Proof.
  intros Hne. induction p as [|c p IH]; intros Hfirst.
  - rewrite !append_nil_l. by apply replace_scan_found.
  - cbn [first_at] in Hfirst. apply andb_prop in Hfirst as [Hhead Hrest].
    apply negb_true_iff in Hhead. rewrite append_cons in *.
    cbn [replace_scan]. rewrite Hhead, IH by done. reflexivity.
Qed.

Lemma replace_first (old new p s : string) :
  old <> EmptyString -> first_at old p (old +:+ s) = true ->
  replace (p +:+ old +:+ s) old new = p +:+ new +:+ replace s old new.
Proof.
  destruct old as [|a o]; [done |]. intros Hne Hfirst.
  by apply replace_scan_first.
Qed.

Lemma isspace_split (c : Ascii.ascii) (s : string) :
  isspace c = true -> split (String c s) = split s.
Proof.
  intros Hc. unfold split. cbn [words_from].
  destruct (words_from s) as [w ws]. by rewrite Hc.
Qed.

Lemma all_space_split (sp s : string) :
  all_space sp = true -> split (sp +:+ s) = split s.
Proof.
  induction sp as [|c sp IH]; [done |]. intros Hsp.
  apply andb_prop in Hsp as [Hc Hsp].
  rewrite append_cons, isspace_split by done. by apply IH.
Qed.

Lemma word_end_words_from (s : string) :
  word_end s = true -> words_from s = (EmptyString, split s).
Proof.
  destruct s as [|c s]; [done |]. intros Hc. simpl in Hc.
  unfold split. cbn [words_from].
  destruct (words_from s) as [w ws]. by rewrite Hc.
Qed.

Lemma word_words_from (w s : string) :
  space_free w = true -> word_end s = true ->
  words_from (w +:+ s) = (w, split s).
Proof.
  intros Hw Hs. induction w as [|c w IH].
  - by apply word_end_words_from.
  - apply andb_prop in Hw as [Hc Hw]. apply negb_true_iff in Hc.
    rewrite append_cons. cbn [words_from]. by rewrite IH, Hc.
Qed.

(** [split] finds the first token and goes on after it. *)
Lemma first_token_split (message w rest : string) :
  first_token message w rest -> split message = w :: split rest.
Proof.
  intros (sp & -> & Hsp & Hne & Hw & Hend).
  rewrite all_space_split by done.
  unfold split at 1. rewrite word_words_from by done.
  by destruct w.
Qed.

Lemma all_space_no_word (message : string) :
  all_space message = true -> split message = [].
Proof.
  intros H. rewrite <- (append_nil_r message). by rewrite all_space_split.
Qed.
(** A token: not empty and without white space. *)
Lemma words_from_tokens (s : string) :
  space_free (words_from s).1 = true
  /\ Forall (fun w => w <> EmptyString /\ space_free w = true) (words_from s).2.
Proof.
  induction s as [|c s [Hw Hws]]; [by split |].
  cbn [words_from]. destruct (words_from s) as [w ws]. cbn [fst snd] in *.
  destruct (isspace c) eqn:Hc; cbn [fst snd].
  - split; [done |]. destruct w; [done |]. by constructor.
  - split; [| done]. cbn. by rewrite Hc.
Qed.

Lemma split_tokens (s : string) :
  Forall (fun w => w <> EmptyString /\ space_free w = true) (split s).
Proof.
  unfold split. destruct (words_from_tokens s) as [Hw Hws].
  destruct (words_from s) as [w ws]. cbn [fst snd] in *.
  destruct w; [done |]. by constructor.
Qed.

Lemma split_word (w : string) :
  w <> EmptyString -> space_free w = true -> split w = [w].
Proof.
  intros Hne Hw. rewrite <- (append_nil_r w) at 1.
  unfold split. rewrite word_words_from by done. by destruct w.
Qed.

Lemma split_join (ws : list string) :
  Forall (fun w => w <> EmptyString /\ space_free w = true) ws ->
  split (join " " ws) = ws.
Proof.
  induction 1 as [|w ws [Hne Hw] Hws IH]; [done |].
  destruct ws as [|w2 ws]; [by apply split_word |].
  change (join " " (w :: w2 :: ws)) with (w +:+ " " +:+ join " " (w2 :: ws)).
  rewrite (first_token_split _ w (" " +:+ join " " (w2 :: ws))).
  - by rewrite append_cons, append_nil_l, isspace_split, IH.
  - exists EmptyString. by repeat split.
Qed.

End StrFacts.

Module LoggerProps.
Import Str Words Logger StrFacts.

Lemma known_level_number (w : string) :
  w ∈ valid_log_types ->
  exists n, getLevelName w = inl n /\ (TRACE_LEVEL_NUM <=? n) = true
    /\ default "INFO" (level_mapping !! n) = w.
Proof.
  unfold valid_log_types. rewrite !elem_of_cons, elem_of_nil.
  intros [-> | [-> | [-> | [-> | [-> | [-> | []]]]]]];
    eexists; (split; [vm_compute; reflexivity |]); split; reflexivity.
Qed.

Lemma native_log_known (_secrets : list string) (w text : string) :
  w ∈ valid_log_types ->
  Logger_log _secrets (getLevelName w) text
  = inr (Some (LOG {| level := w; message := redact _secrets text |})).
Proof.
  intros (n & -> & Hn & Hw)%known_level_number.
  unfold Logger_log, format. cbn [levelno msg Formatter_format].
  by rewrite Hn, Hw.
Qed.

(** C8, as the code has it.  [format] wraps, as a [LOG] message at the
    mapped level, the text obtained by replacing the active secrets one after
    the other, each in the text the replacements before it have left.  A
    secret that is not empty and has no star is absent from the result; a
    message in which no secret occurs is left as it is; with one secret, its
    first occurrence is replaced by the mask and the replacement goes on
    after it. *)
Theorem format_masks_secrets (_secrets : list string) (record : LogRecord) :
  format _secrets record
  = LOG {| level := default "INFO" (level_mapping !! levelno record);
           message := redact _secrets (msg record) |}
  /\ (forall secret, secret ∈ _secrets -> secret <> EmptyString -> star_free secret = true ->
       contains secret (redact _secrets (msg record)) = false)
  /\ (Forall (fun secret => secret <> EmptyString /\ contains secret (msg record) = false)
        _secrets ->
       redact _secrets (msg record) = msg record)
  /\ (forall secret p q, _secrets = [secret] -> secret <> EmptyString ->
       msg record = p +:+ secret +:+ q -> first_at secret p (secret +:+ q) = true ->
       redact _secrets (msg record) = p +:+ mask +:+ redact _secrets q).
Proof.
  split; [reflexivity |]. split; [| split].
  - intros secret Hin Hne Hsf. by apply redact_removes.
  - apply redact_id.
  - intros secret p q -> Hne -> Hfirst. simpl.
    by apply replace_first.
Qed.

Lemma format_masks_secrets_witness :
  format ["sk_live_abc"] {| levelno := logging_INFO; msg := "token=sk_live_abc ok" |}
  = LOG {| level := "INFO"; message := "token=**** ok" |}
  /\ contains "sk_live_abc" "token=**** ok" = false.
Proof.
  destruct (format_masks_secrets ["sk_live_abc"]
              {| levelno := logging_INFO; msg := "token=sk_live_abc ok" |})
    as (Hformat & Hgone & _ & Hfirst).
  split.
  - rewrite Hformat.
    rewrite (Hfirst "sk_live_abc" "token=" " ok" eq_refl ltac:(done) eq_refl eq_refl).
    reflexivity.
  - exact (Hgone "sk_live_abc" ltac:(constructor) ltac:(done) eq_refl).
Defined.

(** C8, as it is worded, fails when a secret contains an earlier one: the
    occurrence of ["key123"] that is the whole message is not replaced by the
    mask; its end stays in the text.  And a secret that has a star can be
    found again in the text, made of what was copied and of the mask. *)
Lemma format_secret_within_secret :
  "key123" ∈ ["key"; "key123"] /\ "key123" <> EmptyString
  /\ formatted ["key"; "key123"] "key123" = "****123"
  /\ ~ occurrence_masked ["key"; "key123"] EmptyString "key123" EmptyString
  /\ formatted ["ab*"] "abab*" = "ab****"
  /\ contains "ab*" (formatted ["ab*"] "abab*") = true.
Proof.
  split; [do 2 constructor |]. split; [done |]. split; [reflexivity |].
  split; [| split; reflexivity].
  unfold occurrence_masked. vm_compute. discriminate.
Qed.

Lemma valid_log_type_token (w : string) :
  w ∈ valid_log_types -> w <> EmptyString /\ space_free w = true.
Proof.
  unfold valid_log_types. rewrite !elem_of_cons, elem_of_nil.
  intros [-> | [-> | [-> | [-> | [-> | [-> | []]]]]]]; by split.
Qed.

(** C9.  When the first white-space delimited token of the message is a
    known level name, both loggers log at that level, whatever the default,
    and the token is not part of the text: the text is made of the tokens
    that follow, joined by single spaces, so that a message whose words are
    separated by single spaces is logged without its first word.  Otherwise
    (another first token, or no token at all) both loggers log the message
    itself at the level the caller supplies, which is one of the levels of
    the protocol.  What [AirbyteNativeLogger] logs goes through the
    formatter, which masks the secrets. *)
Theorem log_by_prefix_level (_secrets : list string) (message default_level : string) :
  (forall w rest, first_token message w rest -> w ∈ valid_log_types ->
     log_by_prefix message default_level
     = LOG {| level := w; message := join " " (split rest) |}
     /\ native_log_by_prefix _secrets message default_level
       = inr (Some (LOG {| level := w;
                           message := redact _secrets (join " " (split rest)) |})))
  /\ (forall w ws, w ∈ valid_log_types ->
        Forall (fun t => t <> EmptyString /\ space_free t = true) ws ->
        message = join " " (w :: ws) ->
        log_by_prefix message default_level
        = LOG {| level := w; message := join " " ws |}
        /\ native_log_by_prefix _secrets message default_level
           = inr (Some (LOG {| level := w; message := redact _secrets (join " " ws) |})))
  /\ (all_space message = true
      \/ (exists w rest, first_token message w rest /\ w ∉ valid_log_types) ->
      default_level ∈ valid_log_types ->
      log_by_prefix message default_level
      = LOG {| level := default_level; message := message |}
      /\ native_log_by_prefix _secrets message default_level
         = inr (Some (LOG {| level := default_level;
                             message := redact _secrets message |}))).
Proof.
  split; [| split].
  - intros w rest Hsplit%first_token_split Hw.
    unfold log_by_prefix, native_log_by_prefix. rewrite Hsplit.
    cbn [head tail in_valid_log_types default]. rewrite bool_decide_eq_true_2 by done.
    split; [reflexivity | by apply native_log_known].
  - intros w ws Hw Hws ->.
    assert (Hsplit : split (join " " (w :: ws)) = w :: ws).
    { apply split_join. constructor; [by apply valid_log_type_token | done]. }
    unfold log_by_prefix, native_log_by_prefix. rewrite Hsplit.
    cbn [head tail in_valid_log_types default]. rewrite bool_decide_eq_true_2 by done.
    split; [reflexivity | by apply native_log_known].
  - intros Hno Hdefault.
    assert (Hhead : in_valid_log_types (head (split message)) = false).
    { destruct Hno as [Hsp | (w & rest & Hsplit%first_token_split & Hw)].
      - by rewrite all_space_no_word.
      - rewrite Hsplit. by apply bool_decide_eq_false_2. }
    unfold log_by_prefix, native_log_by_prefix. rewrite Hhead.
    split; [reflexivity |]. rewrite bool_decide_eq_true_2 by done.
    by apply native_log_known.
Qed.

Lemma log_by_prefix_level_witness :
  log_by_prefix "ERROR disk full" "INFO" = LOG {| level := "ERROR"; message := "disk full" |}
  /\ log_by_prefix "disk full" "INFO" = LOG {| level := "INFO"; message := "disk full" |}
  /\ native_log_by_prefix [] "ERROR disk full" "INFO"
     = inr (Some (LOG {| level := "ERROR"; message := "disk full" |}))
  /\ native_log_by_prefix [] "disk full" "INFO"
     = inr (Some (LOG {| level := "INFO"; message := "disk full" |}))
  /\ log_by_prefix "WARN   low  disk " "INFO"
     = LOG {| level := "WARN"; message := "low disk" |}.
Proof.
  assert (Hother : first_token "disk full" "disk" " full").
  { exists EmptyString. repeat split; done. }
  assert (Hspaced : first_token "WARN   low  disk " "WARN" "   low  disk ").
  { exists EmptyString. repeat split; done. }
  destruct (log_by_prefix_level [] "ERROR disk full" "INFO") as (_ & Hwords & _).
  destruct (Hwords "ERROR" ["disk"; "full"] ltac:(do 2 constructor)
              ltac:(repeat constructor; done) eq_refl) as [H1 H2].
  destruct (log_by_prefix_level [] "disk full" "INFO") as (_ & _ & Hdefault).
  destruct Hdefault as [H3 H4].
  { right. exists "disk", " full". split; [done |].
    apply (proj1 (bool_decide_eq_false _)). reflexivity. }
  { do 4 constructor. }
  destruct (log_by_prefix_level [] "WARN   low  disk " "INFO") as (Hlevel & _).
  destruct (Hlevel "WARN" "   low  disk " Hspaced ltac:(do 3 constructor)) as [H5 _].
  split; [exact H1 | split; [exact H3 | split; [exact H2 | split; [exact H4 | exact H5]]]].
Defined.

End LoggerProps.

(** ** Runs of the source *)

Module SourceFacts.
Import Streams AbstractSource Words.

Section Run.

Context (self : Source) (rt : Runtime) (config : json).

(** Names what the run of the loop in the goal gave. *)
Ltac case_loop := destruct (read_loop _ _ _ _ _ _ _ _) as [[?out ?s'] ?r].

(** One turn of the loop when the stream is not read incrementally. *)
Lemma read_loop_full stream_name record records raised stream_state c s :
  read_loop rt stream_name None (record :: records) raised stream_state c s
  = let '(out, s', r) :=
      read_loop rt stream_name None records raised stream_state (c + 1) (tick s) in
    (record_event rt stream_name record s :: out, s', r).
Proof.
  cbn [read_loop]. unfold bind, now_timestamp, yield, ret.
  by case_loop.
Qed.

(** One turn of the loop of an incremental read. *)
Lemma read_loop_incremental stream_name inc record records raised stream_state c s :
  read_loop rt stream_name (Some inc) (record :: records) raised stream_state c s
  = match get_updated_state inc stream_state record with
    | inl e => ([record_event rt stream_name record s], tick s, Raised e)
    | inr stream_state' =>
        if continuously_save_state inc && ((c + 1) mod 100 =? 0)
        then
          let s1 := merged stream_name stream_state' (tick s) in
          let '(out, s', r) :=
            read_loop rt stream_name (Some inc) records raised stream_state' (c + 1) s1 in
          (record_event rt stream_name record s :: Yield (STATE (total_state s1)) :: out,
           s', r)
        else
          let '(out, s', r) :=
            read_loop rt stream_name (Some inc) records raised stream_state' (c + 1)
              (tick s) in
          (record_event rt stream_name record s :: out, s', r)
    end.
Proof.
  cbn [read_loop]. unfold bind, now_timestamp, yield, call.
  destruct (get_updated_state inc stream_state record) as [e | stream_state'];
    [reflexivity |].
  unfold ret, raise.
  destruct (continuously_save_state inc && ((c + 1) mod 100 =? 0)); cbn.
  - by case_loop.
  - by case_loop.
Qed.

Lemma read_loop_end stream_name use_incremental raised stream_state c s :
  read_loop rt stream_name use_incremental [] raised stream_state c s
  = ([], s, match raised with Some e => Raised e | None => Returned stream_state end).
Proof. by destruct raised. Qed.

Lemma _read_stream_missing configured_stream e s :
  getitem (streams self config) (Protocol.name (stream configured_stream)) = inl e ->
  _read_stream self rt config configured_stream s = ([], s, Raised e).
Proof. intros H. unfold _read_stream, bind. by rewrite H. Qed.

(** [_read_stream] in terms of its loop. *)
Lemma _read_stream_found configured_stream stream_instance s :
  let stream_name := Protocol.name (stream configured_stream) in
  let use_incremental := use_incremental_of configured_stream stream_instance in
  let stream_state := seed_state use_incremental stream_name s in
  getitem (streams self config) stream_name = inr stream_instance ->
  _read_stream self rt config configured_stream s
  = match read_loop rt stream_name use_incremental
            (read_stream stream_instance stream_state).1
            (read_stream stream_instance stream_state).2 stream_state 0 s with
    | (out, s1, Raised e) => (opening rt use_incremental stream_name s ++ out, s1, Raised e)
    | (out, s1, Returned final) =>
        if bool_decide (is_Some use_incremental) && truthy final
        then (opening rt use_incremental stream_name s ++ out
                ++ [Yield (STATE (total_state (merged stream_name final s1)))],
              merged stream_name final s1, Returned tt)
        else (opening rt use_incremental stream_name s ++ out, s1, Returned tt)
    end.
Proof.
  intros stream_name use_incremental stream_state Hfound.
  subst stream_state use_incremental. unfold _read_stream. fold stream_name.
  unfold bind at 1. rewrite Hfound. cbn [call ret].
  change (if decide (sync_mode configured_stream = incremental)
          then as_incremental stream_instance else None)
    with (use_incremental_of configured_stream stream_instance).
  generalize (use_incremental_of configured_stream stream_instance).
  intros use_incremental.
  unfold bind at 1. cbn [state_get].
  unfold seed_state, opening, seeded.
  destruct (bool_decide (is_Some use_incremental)
            && truthy_opt (total_state s !! stream_name)) eqn:Hseed.
  - unfold bind, print, ret. cbn.
    destruct (read_stream _ _) as [records raised]. cbn.
    destruct (read_loop _ _ _ _ _ _ _ _) as [[out s1] [final | e]]; [| done].
    destruct (bool_decide (is_Some use_incremental) && truthy final); cbn.
    + by rewrite ?app_nil_r.
    + by rewrite ?app_nil_r.
  - unfold bind, print, ret. cbn.
    destruct (read_stream _ _) as [records raised]. cbn.
    destruct (read_loop _ _ _ _ _ _ _ _) as [[out s1] [final | e]]; [| done].
    destruct (bool_decide (is_Some use_incremental) && truthy final); cbn.
    + by rewrite ?app_nil_r.
    + by rewrite ?app_nil_r.
Qed.

Lemma read_streams_cons configured_stream catalog s :
  read_streams self rt config (configured_stream :: catalog) s
  = match _read_stream self rt config configured_stream s with
    | (out, s1, Returned _) =>
        let '(out2, s2, r) := read_streams self rt config catalog s1 in
        (out ++ out2, s2, r)
    | (out, s1, Raised e) =>
        (out ++ (if is_Exception e then [exception_line self rt e] else []), s1, Raised e)
    end.
Proof.
  cbn [read_streams]. unfold bind at 1, try_except_Exception.
  destruct (_read_stream self rt config configured_stream s) as [[out s1] [[] | e]];
    [reflexivity |].
  destruct (is_Exception e); [reflexivity | by rewrite app_nil_r].
Qed.

Lemma read_streams_app pre post s :
  read_streams self rt config (pre ++ post) s
  = match read_streams self rt config pre s with
    | (out, s1, Returned _) =>
        let '(out2, s2, r) := read_streams self rt config post s1 in
        (out ++ out2, s2, r)
    | (out, s1, Raised e) => (out, s1, Raised e)
    end.
Proof.
  revert s. induction pre as [|configured_stream pre IH]; intros s.
  - cbn. by destruct (read_streams self rt config post s) as [[out2 s2] r].
  - rewrite <- app_comm_cons, !read_streams_cons.
    destruct (_read_stream self rt config configured_stream s) as [[out s1] [[] | e]];
      [| reflexivity].
    rewrite IH.
    destruct (read_streams self rt config pre s1) as [[out1 s2] [[] | e]]; [| reflexivity].
    destruct (read_streams self rt config post s2) as [[out2 s3] r].
    by rewrite app_assoc.
Qed.

Lemma read_unfold catalog state :
  read self rt config catalog state
  = match read_streams self rt config catalog (initial state) with
    | (out, s1, Returned _) =>
        (Print (Logger.info ("Starting syncing " +:+ name self)) :: out
           ++ [Print (Logger.info ("Finished syncing " +:+ name self))],
         s1, Returned tt)
    | (out, s1, Raised e) =>
        (Print (Logger.info ("Starting syncing " +:+ name self)) :: out, s1, Raised e)
    end.
Proof.
  unfold read, read_body, bind, print. fold (initial state).
  by destruct (read_streams self rt config catalog (initial state))
    as [[out s1] [[] | e]].
Qed.

(** *** What a run emits *)

Lemma read_loop_events stream_name use_incremental records raised
    stream_state c s (P : event -> Prop) :
  (forall data, P (Yield (STATE data))) ->
  (forall record s0, P (record_event rt stream_name record s0)) ->
  Forall P (read_loop rt stream_name use_incremental records raised stream_state c s).1.1.
Proof.
  intros Hstate Hrecord. revert stream_state c s.
  induction records as [|record records IH]; intros stream_state c s.
  - rewrite read_loop_end. constructor.
  - destruct use_incremental as [inc |].
    + rewrite read_loop_incremental.
      destruct (get_updated_state inc stream_state record) as [e | stream_state'].
      { by repeat constructor. }
      destruct (continuously_save_state inc && ((c + 1) mod 100 =? 0)); cbv zeta.
      * specialize (IH stream_state' (c + 1)
                       (merged stream_name stream_state' (tick s))).
        case_loop.
        by repeat constructor.
      * specialize (IH stream_state' (c + 1) (tick s)).
        case_loop.
        by constructor.
    + rewrite read_loop_full. specialize (IH stream_state (c + 1) (tick s)).
      case_loop.
      by constructor.
Qed.

Lemma opening_prints use_incremental stream_name s (P : event -> Prop) :
  (forall m, P (Print m)) -> Forall P (opening rt use_incremental stream_name s).
Proof.
  intros HP. unfold opening.
  destruct (seeded use_incremental stream_name s); repeat constructor; apply HP.
Qed.

Lemma _read_stream_events configured_stream s (P : event -> Prop) :
  (forall m, P (Print m)) ->
  (forall data, P (Yield (STATE data))) ->
  (forall stream_instance record s0,
     getitem (streams self config) (Protocol.name (stream configured_stream))
     = inr stream_instance ->
     P (record_event rt (Protocol.name (stream configured_stream)) record s0)) ->
  Forall P (_read_stream self rt config configured_stream s).1.1.
Proof.
  intros Hprint Hstate Hrecord.
  destruct (getitem (streams self config) (Protocol.name (stream configured_stream)))
    as [e | stream_instance] eqn:Hget.
  - rewrite (_read_stream_missing _ e) by done. constructor.
  - rewrite (_read_stream_found _ stream_instance) by done.
    match goal with |- context [read_loop ?x1 ?x2 ?x3 ?x4 ?x5 ?x6 ?x7 ?x8] =>
      pose proof (read_loop_events x2 x3 x4 x5 x6 x7 x8 P Hstate
                    (fun record s0 => Hrecord stream_instance record s0 eq_refl))
        as Hloop;
      destruct (read_loop x1 x2 x3 x4 x5 x6 x7 x8) as [[out s1] [final | e]] end.
    + destruct (_ && truthy final); cbn;
        rewrite ?Forall_app; repeat split;
        try (by apply opening_prints); try done.
      by repeat constructor.
    + cbn. rewrite Forall_app. split; [by apply opening_prints | done].
Qed.

Lemma read_streams_events catalog s (P : event -> Prop) :
  (forall m, P (Print m)) ->
  (forall data, P (Yield (STATE data))) ->
  (forall stream_name stream_instance record s0,
     getitem (streams self config) stream_name = inr stream_instance ->
     P (record_event rt stream_name record s0)) ->
  Forall P (read_streams self rt config catalog s).1.1.
Proof.
  intros Hprint Hstate Hrecord.
  revert s. induction catalog as [|configured_stream catalog IH]; intros s.
  - constructor.
  - rewrite read_streams_cons.
    pose proof (_read_stream_events configured_stream s P Hprint Hstate
                  (Hrecord _)) as H1.
    destruct (_read_stream self rt config configured_stream s) as [[out s1] [[] | e]].
    + specialize (IH s1).
      destruct (read_streams self rt config catalog s1) as [[out2 s2] r].
      cbn in *. by rewrite Forall_app.
    + cbn in *. rewrite Forall_app. split; [done |].
      destruct (is_Exception e); repeat constructor. apply Hprint.
Qed.

Lemma read_events catalog state (P : event -> Prop) :
  (forall m, P (Print m)) ->
  (forall data, P (Yield (STATE data))) ->
  (forall stream_name stream_instance record s0,
     getitem (streams self config) stream_name = inr stream_instance ->
     P (record_event rt stream_name record s0)) ->
  Forall P (read self rt config catalog state).1.1.
Proof.
  intros Hprint Hstate Hrecord. rewrite read_unfold.
  pose proof (read_streams_events catalog (initial state) P
                Hprint Hstate Hrecord) as H.
  destruct (read_streams _ _ _ _ _) as [[out s1] [[] | e]]; cbn in *.
  - constructor; [apply Hprint |]. rewrite Forall_app. split; [done |].
    repeat constructor. apply Hprint.
  - constructor; [apply Hprint | done].
Qed.

(** *** The aggregate state *)





Lemma states_app out1 out2 : states (out1 ++ out2) = states out1 ++ states out2.
Proof. apply omap_app. Qed.

Lemma states_opening use_incremental stream_name s :
  states (opening rt use_incremental stream_name s) = [].
Proof. unfold opening. by destruct (seeded _ _ _). Qed.







(** *** Full extraction *)

Lemma read_loop_full_run stream_name records raised stream_state c s :
  let run := read_loop rt stream_name None records raised stream_state c s in
  run.1.1 = record_events rt stream_name records s
  /\ total_state run.1.2 = total_state s
  /\ run.2 = match raised with Some e => Raised e | None => Returned stream_state end.
Proof.
  revert c s. induction records as [|record records IH]; intros c s.
  - by rewrite read_loop_end.
  - rewrite read_loop_full. specialize (IH (c + 1) (tick s)).
    case_loop.
    cbn in *. destruct IH as (-> & -> & ->). done.
Qed.

Lemma states_record_events stream_name records s :
  states (record_events rt stream_name records s) = [].
Proof. revert s. induction records as [|record records IH]; intros s; [done | apply IH]. Qed.

(** *** Independence of the clock *)

Lemma read_loop_same_states stream_name use_incremental records raised
    stream_state c s1 s2 :
  total_state s1 = total_state s2 ->
  same_states
    (read_loop rt stream_name use_incremental records raised stream_state c s1)
    (read_loop rt stream_name use_incremental records raised stream_state c s2).
Proof.
  revert stream_state c s1 s2.
  induction records as [|record records IH]; intros stream_state c s1 s2 Hs.
  - rewrite !read_loop_end. by repeat split.
  - destruct use_incremental as [inc |].
    + rewrite !read_loop_incremental.
      destruct (get_updated_state inc stream_state record) as [e | stream_state'].
      { by repeat split. }
      destruct (continuously_save_state inc && ((c + 1) mod 100 =? 0)); cbv zeta.
      * specialize (IH stream_state' (c + 1)
                       (merged stream_name stream_state' (tick s1))
                       (merged stream_name stream_state' (tick s2))).
        do 2 destruct (read_loop _ _ _ _ _ _ _ _) as [[? ?] ?].
        destruct IH as (H1 & H2 & H3); [cbn; by rewrite Hs |].
        unfold same_states in *. cbn [fst snd] in *.
        change (states (?ev :: Yield (STATE ?d) :: ?out)) with (d :: states out).
        cbn. by rewrite Hs, H1.
      * specialize (IH stream_state' (c + 1) (tick s1) (tick s2) Hs).
        do 2 destruct (read_loop _ _ _ _ _ _ _ _) as [[? ?] ?].
        exact IH.
    + rewrite !read_loop_full.
      specialize (IH stream_state (c + 1) (tick s1) (tick s2) Hs).
      do 2 destruct (read_loop _ _ _ _ _ _ _ _) as [[? ?] ?].
      exact IH.
Qed.

Lemma seed_state_same use_incremental stream_name s1 s2 :
  total_state s1 = total_state s2 ->
  seed_state use_incremental stream_name s1 = seed_state use_incremental stream_name s2.
Proof. unfold seed_state, seeded. by intros ->. Qed.

Lemma _read_stream_same_states configured_stream s1 s2 :
  total_state s1 = total_state s2 ->
  same_states (_read_stream self rt config configured_stream s1)
              (_read_stream self rt config configured_stream s2).
Proof.
  intros Hs.
  destruct (getitem (streams self config) (Protocol.name (stream configured_stream)))
    as [e | stream_instance] eqn:Hget.
  - rewrite !(_read_stream_missing _ e) by done. by repeat split.
  - rewrite !(_read_stream_found _ stream_instance) by done.
    rewrite (seed_state_same _ _ s1 s2) by done.
    match goal with |- context [read_loop ?x1 ?x2 ?x3 ?x4 ?x5 ?x6 ?x7 s1] =>
      pose proof (read_loop_same_states x2 x3 x4 x5 x6 x7 s1 s2 Hs) as (H1 & H2 & H3);
      destruct (read_loop x1 x2 x3 x4 x5 x6 x7 s1) as [[out1 t1] r1];
      destruct (read_loop x1 x2 x3 x4 x5 x6 x7 s2) as [[out2 t2] r2] end.
    cbn [fst snd] in *. subst r2.
    destruct r1 as [final | e].
    + destruct (_ && truthy final); unfold same_states; cbn [fst snd];
        rewrite ?states_app, !states_opening; cbn [app]; [| done].
      cbn. by rewrite H1, H2.
    + unfold same_states; cbn [fst snd].
      by rewrite !states_app, !states_opening.
Qed.

Lemma read_streams_same_states catalog s1 s2 :
  total_state s1 = total_state s2 ->
  same_states (read_streams self rt config catalog s1)
              (read_streams self rt config catalog s2).
Proof.
  revert s1 s2. induction catalog as [|configured_stream catalog IH]; intros s1 s2 Hs.
  - by repeat split.
  - rewrite !read_streams_cons.
    pose proof (_read_stream_same_states configured_stream s1 s2 Hs)
      as (H1 & H2 & H3).
    destruct (_read_stream self rt config configured_stream s1) as [[out1 t1] r1].
    destruct (_read_stream self rt config configured_stream s2) as [[out2 t2] r2].
    cbn [fst snd] in *. subst r2. destruct r1 as [[] | e].
    + specialize (IH t1 t2 H2). destruct IH as (H4 & H5 & H6).
      do 2 destruct (read_streams _ _ _ _ _) as [[? ?] ?].
      unfold same_states. cbn [fst snd] in *. by rewrite !states_app, H1, H4.
    + unfold same_states. cbn [fst snd]. rewrite !states_app, H1. done.
Qed.

(** *** Checkpoints *)

Lemma yielded_app out1 out2 : yielded (out1 ++ out2) = yielded out1 ++ yielded out2.
Proof. apply omap_app. Qed.

Lemma yielded_opening use_incremental stream_name s :
  yielded (opening rt use_incremental stream_name s) = [].
Proof. unfold opening. by destruct (seeded _ _ _). Qed.

Lemma yielded_record_event stream_name record s out :
  yielded (record_event rt stream_name record s :: out)
  = RECORD {| record_stream := stream_name; record_data := record;
              emitted_at := int (timestamp rt (clock_reads s)) * 1000 |}
    :: yielded out.
Proof. reflexivity. Qed.

(** The loop never starts with a [STATE] message. *)
Lemma read_loop_head stream_name use_incremental records raised stream_state c s :
  match yielded (read_loop rt stream_name use_incremental records raised
                   stream_state c s).1.1 with
  | m :: _ => is_state m = false
  | [] => True
  end.
Proof.
  destruct records as [|record records]; [by rewrite read_loop_end |].
  destruct use_incremental as [inc |].
  - rewrite read_loop_incremental.
    destruct (get_updated_state inc stream_state record); [done |].
    destruct (_ && _); cbv zeta;
      by destruct (read_loop _ _ _ _ _ _ _ _) as [[? ?] ?].
  - rewrite read_loop_full. by destruct (read_loop _ _ _ _ _ _ _ _) as [[? ?] ?].
Qed.

Lemma hundreds_next (c : Z) :
  0 <= c ->
  (c + 1) / 100 = if (c + 1) mod 100 =? 0 then c / 100 + 1 else c / 100.
Proof.
  intros Hc. destruct ((c + 1) mod 100 =? 0) eqn:Hmod.
  - apply Z.eqb_eq in Hmod. Z.div_mod_to_equations. lia.
  - apply Z.eqb_neq in Hmod. Z.div_mod_to_equations. lia.
Qed.

End Run.

End SourceFacts.

(** ** Runs that end with a fault, and the entry a state sets *)

Module RunFacts.
Import Streams AbstractSource Words MoreWords RunWords SourceFacts.

Section Faults.

Context (self : Source) (rt : Runtime) (config : json).

(** *** The entry a state sets *)







(** How the loop of an incremental read ends. *)
Lemma read_loop_outcome stream_name inc records raised stream_state c s :
  (read_loop rt stream_name (Some inc) records raised stream_state c s).2
  = match fold_state inc stream_state records with
    | inl e => Raised e
    | inr final => match raised with Some e => Raised e | None => Returned final end
    end.
Proof.
  revert stream_state c s.
  induction records as [|record records IH]; intros stream_state c s.
  - by rewrite read_loop_end.
  - rewrite read_loop_incremental. cbn [fold_state].
    destruct (get_updated_state inc stream_state record) as [e | stream_state']; [done |].
    destruct (continuously_save_state inc && ((c + 1) mod 100 =? 0)); cbv zeta.
    + specialize (IH stream_state' (c + 1) (merged stream_name stream_state' (tick s))).
      by destruct (read_loop _ _ _ _ _ _ _ _) as [[out s'] r].
    + specialize (IH stream_state' (c + 1) (tick s)).
      by destruct (read_loop _ _ _ _ _ _ _ _) as [[out s'] r].
Qed.




(** *** Checkpoints, however the read ends *)

Lemma folded_count_all inc stream_state records final :
  fold_state inc stream_state records = inr final ->
  folded_count inc stream_state records = length records.
Proof.
  revert stream_state. induction records as [|record records IH]; intros stream_state;
    cbn [folded_count fold_state length]; [done |].
  destruct (get_updated_state inc stream_state record) as [e | stream_state']; [done |].
  intros H. by rewrite (IH _ H).
Qed.

Lemma folded_count_fault inc stream_state records (k : nat) cursor record e :
  fold_state inc stream_state (take k records) = inr cursor ->
  records !! k = Some record ->
  get_updated_state inc cursor record = inl e ->
  folded_count inc stream_state records = k
  /\ fold_state inc stream_state records = inl e.
Proof.
  revert stream_state k. induction records as [|r records IH]; intros stream_state k;
    [done |].
  destruct k as [|k]; cbn [take fold_state folded_count lookup].
  - intros [= ->] [= ->] ->. done.
  - cbn. destruct (get_updated_state inc stream_state r) as [e' | stream_state'];
      [done |].
    intros Hfold Hk He. destruct (IH stream_state' k Hfold Hk He) as [-> ->]. done.
Qed.

Lemma state_follows_short (N : nat) msgs :
  (count_records msgs < N)%nat -> state_follows N msgs = false.
Proof.
  revert N. induction msgs as [|m msgs IH]; intros N; [done |].
  unfold count_records. rewrite filter_cons. cbn [state_follows].
  destruct (is_record m) eqn:Hm.
  - rewrite decide_True by done. cbn [length]. intros HN.
    destruct N as [|[|N]]; [lia | lia |]. apply IH. unfold count_records. lia.
  - rewrite decide_False by done. apply IH.
Qed.

Lemma read_loop_checkpoints_any stream_name inc records raised stream_state c s :
  0 <= c ->
  let run := read_loop rt stream_name (Some inc) records raised stream_state c s in
  let folded := folded_count inc stream_state records in
  count_records (yielded run.1.1) = Nat.min (S folded) (length records)
  /\ (forall N, (1 <= N <= folded)%nat ->
       state_follows N (yielded run.1.1)
       = continuously_save_state inc && ((c + Z.of_nat N) mod 100 =? 0))
  /\ (forall N, (folded < N)%nat -> state_follows N (yielded run.1.1) = false)
  /\ Z.of_nat (count_states (yielded run.1.1))
     = if continuously_save_state inc
       then (c + Z.of_nat folded) / 100 - c / 100 else 0.
Proof.
  revert stream_state c s.
  induction records as [|record records IH]; intros stream_state c s Hc.
  - rewrite read_loop_end. cbn. split; [done |]. split; [lia |]. split; [done |].
    rewrite Z.add_0_r, Z.sub_diag. by destruct (continuously_save_state inc).
  - cbv zeta. rewrite read_loop_incremental. cbn [folded_count length].
    destruct (get_updated_state inc stream_state record) as [e | stream_state'].
    { cbn [fst snd]. split; [reflexivity |]. split; [lia |]. split.
      - intros [|[|N]] HN; [lia | reflexivity |]. apply state_follows_short.
        change (count_records _) with 1%nat. lia.
      - cbn. rewrite Z.add_0_r, Z.sub_diag. by destruct (continuously_save_state inc). }
    pose proof (hundreds_next c Hc) as Hnext.
    destruct (continuously_save_state inc && ((c + 1) mod 100 =? 0)) eqn:Hsave;
      cbv zeta.
    + destruct (IH stream_state' (c + 1)
                  (merged stream_name stream_state' (tick s)) ltac:(lia))
        as (Hrecords & Hfollows & Hafter & Hstates).
      destruct (read_loop _ _ _ _ _ _ _ _) as [[out' s''] r]. cbn [fst snd] in *.
      apply andb_prop in Hsave as [Hflag Hmod]. rewrite Hflag, Hmod in *.
      split.
      { change (count_records (yielded (?ev :: ?ev' :: out')))
          with (S (count_records (yielded out'))).
        rewrite Hrecords. lia. }
      split; [| split].
      * intros [|[|N]] HN; [lia | |].
        { change (Z.of_nat 1) with 1. by rewrite Hmod. }
        change (state_follows (S (S N)) (yielded (?ev :: ?ev' :: out')))
          with (state_follows (S N) (yielded out')).
        rewrite Hfollows by lia.
        by replace (c + Z.of_nat (S (S N))) with (c + 1 + Z.of_nat (S N)) by lia.
      * intros [|[|N]] HN; [lia | lia |].
        change (state_follows (S (S N)) (yielded (?ev :: ?ev' :: out')))
          with (state_follows (S N) (yielded out')).
        apply Hafter. lia.
      * change (count_states (yielded (?ev :: ?ev' :: out')))
          with (S (count_states (yielded out'))).
        rewrite Nat2Z.inj_succ, Hstates.
        replace (c + Z.of_nat (S (folded_count inc stream_state' records)))
          with (c + 1 + Z.of_nat (folded_count inc stream_state' records)) by lia.
        cbv iota in Hnext |- *. lia.
    + destruct (IH stream_state' (c + 1) (tick s) ltac:(lia))
        as (Hrecords & Hfollows & Hafter & Hstates).
      pose proof (read_loop_head rt stream_name (Some inc) records raised stream_state'
                    (c + 1) (tick s)) as Hhead.
      destruct (read_loop _ _ _ _ _ _ _ _) as [[out' s''] r]. cbn [fst snd] in *.
      split.
      { change (count_records (yielded (?ev :: out')))
          with (S (count_records (yielded out'))).
        rewrite Hrecords. lia. }
      split; [| split].
      * intros [|[|N]] HN; [lia | |].
        -- change (Z.of_nat 1) with 1. rewrite Hsave, yielded_record_event.
           destruct (yielded out') as [|m ?]; [done | exact Hhead].
        -- change (state_follows (S (S N)) (yielded (?ev :: out')))
             with (state_follows (S N) (yielded out')).
           rewrite Hfollows by lia.
           by replace (c + Z.of_nat (S (S N))) with (c + 1 + Z.of_nat (S N)) by lia.
      * intros [|[|N]] HN; [lia | lia |].
        change (state_follows (S (S N)) (yielded (?ev :: out')))
          with (state_follows (S N) (yielded out')).
        apply Hafter. lia.
      * change (count_states (yielded (?ev :: out')))
          with (count_states (yielded out')).
        rewrite Hstates.
        replace (c + Z.of_nat (S (folded_count inc stream_state' records)))
          with (c + 1 + Z.of_nat (folded_count inc stream_state' records)) by lia.
        destruct (continuously_save_state inc); [| done].
        cbn [andb] in Hsave. rewrite Hsave in Hnext. lia.
Qed.

End Faults.

Lemma count_states_states out : count_states (yielded out) = length (states out).
Proof.
  induction out as [|ev out IH]; [done |].
  destruct ev as [[] |]; try exact IH.
  change (yielded (Yield (STATE data) :: out)) with (STATE data :: yielded out).
  change (states (Yield (STATE data) :: out)) with (data :: states out).
  unfold count_states in *. rewrite filter_cons, decide_True by done.
  cbn [length]. by rewrite IH.
Qed.

Lemma count_records_record_events rt stream_name records s :
  count_records (yielded (record_events rt stream_name records s)) = length records.
Proof.
  revert s. induction records as [|record records IH]; intros s; [done |].
  cbn [record_events]. rewrite yielded_record_event.
  unfold count_records in *. rewrite filter_cons, decide_True by done.
  cbn [length]. by rewrite IH.
Qed.

(** The loop raises the fault that ends the extraction, having yielded the
    records up to it and no [STATE] message but the checkpoints. *)
Lemma read_loop_fault rt stream_name use_incremental records raised stream_state s e
    (n folded : nat) :
  extraction_fault use_incremental stream_state records raised e n folded ->
  let run := read_loop rt stream_name use_incremental records raised stream_state 0 s in
  run.2 = Raised e
  /\ count_records (yielded run.1.1) = n
  /\ Z.of_nat (count_states (yielded run.1.1)) = checkpoints use_incremental folded.
Proof.
  intros Hfault run. subst run. destruct use_incremental as [inc |].
  - destruct (read_loop_checkpoints_any rt stream_name inc records raised stream_state 0 s
                ltac:(lia)) as (Hrecords & _ & _ & Hstates).
    rewrite read_loop_outcome, Hrecords, Hstates. cbn [checkpoints].
    rewrite Z.add_0_l. change (0 / 100) with 0. rewrite Z.sub_0_r.
    destruct Hfault as [[-> [final Hfinal]] | k (inc' & cursor & record & [= <-] & Hk & Hrecord & He)].
    + rewrite Hfinal, (folded_count_all _ _ _ _ Hfinal).
      split; [done |]. split; [lia | done].
    + destruct (folded_count_fault inc stream_state records k cursor record e Hk Hrecord He)
        as [-> ->].
      apply lookup_lt_Some in Hrecord. split; [done |]. split; [lia | done].
  - destruct (read_loop_full_run rt stream_name records raised stream_state 0 s)
      as (Hout & _ & Hend).
    rewrite Hend, Hout, count_records_record_events, count_states_states,
      states_record_events.
    destruct Hfault as [[-> _] | k (inc' & cursor & record & [=] & _)].
    by repeat split.
Qed.

End RunFacts.

(** ** The source *)

Module SourceProps.

Import Streams AbstractSource Words MoreWords RunWords SourceFacts RunFacts.

Lemma discover_map (self : Source) (config : json) :
  discover self config = map discover_stream (streams self config).
Proof.
  unfold discover.
  assert (Hfold : forall items acc,
             fold_left (fun streams item => streams ++ [discover_stream item]) items acc
             = acc ++ map discover_stream items).
  { induction items as [|item items IH]; intros acc; cbn.
    - by rewrite app_nil_r.
    - by rewrite IH, <- app_assoc. }
  apply Hfold.
Qed.

(** C7.  [discover] builds one descriptor per stream, in the order of the
    mapping: it has the name and the schema of the stream; its sync modes
    are [full_refresh], and [incremental] exactly for an incremental stream;
    [source_defined_cursor] and [default_cursor_field] are set for an
    incremental stream only, a single field name becoming a path of one
    element. *)
Theorem discover_descriptors (self : Source) (config : json) :
  length (discover self config) = length (streams self config)
  /\ forall (i : nat) stream_name stream_instance,
       streams self config !! i = Some (stream_name, stream_instance) ->
       exists descriptor,
         discover self config !! i = Some descriptor
         /\ Protocol.name descriptor = stream_name
         /\ json_schema descriptor = get_json_schema stream_instance
         /\ (forall mode, mode ∈ supported_sync_modes descriptor <->
               mode = full_refresh
               \/ (mode = incremental /\ is_Some (as_incremental stream_instance)))
         /\ Protocol.source_defined_cursor descriptor
            = source_defined_cursor <$> as_incremental stream_instance
         /\ default_cursor_field descriptor
            = (fun incremental_stream =>
                 match cursor_field incremental_stream with
                 | CursorName field => [field]
                 | CursorPath path => path
                 end) <$> as_incremental stream_instance.
Proof.
  rewrite discover_map. split; [by rewrite length_map |].
  intros i stream_name stream_instance Hi.
  exists (discover_stream (stream_name, stream_instance)).
  split; [by rewrite list_lookup_fmap, Hi |].
  unfold discover_stream.
  destruct (as_incremental stream_instance) as [incremental_stream |]; cbn.
  - repeat split; try done.
    + rewrite !elem_of_cons, elem_of_nil. intros [-> | [-> | []]]; eauto.
    + rewrite !elem_of_cons. intros [-> | [-> _]]; auto.
  - repeat split; try done.
    + rewrite !elem_of_cons, elem_of_nil. intros [-> | []]; eauto.
    + rewrite !elem_of_cons. intros [-> | [_ [? ?]]]; [auto | done].
Qed.

Lemma discover_descriptors_witness :
  exists descriptor,
    discover Demo.source JNull !! 0%nat = Some descriptor
    /\ supported_sync_modes descriptor = [full_refresh; incremental]
    /\ default_cursor_field descriptor = Some ["id"].
Proof.
  destruct (discover_descriptors Demo.source JNull) as [_ H].
  destruct (H 0%nat "events" Demo.events eq_refl) as (descriptor & Hd & _).
  exists descriptor. split; [exact Hd |].
  cbv in Hd. injection Hd as <-. split; reflexivity.
Defined.

(** C6.  [check] returns a status and does not raise when
    [check_connection] returns: [FAILED] with the error detail as a string
    when the connection is not alive, [SUCCEEDED] without a message when it
    is. *)
Theorem check_status (self : Source) (rt : Runtime) (config : json) :
  (forall detail, check_connection self config = inr (false, detail) ->
     check self rt config
     = inr {| status := FAILED; status_message := Some (str rt detail) |})
  /\ (forall detail, check_connection self config = inr (true, detail) ->
        check self rt config = inr {| status := SUCCEEDED; status_message := None |}).
Proof. unfold check. split; intros detail ->; reflexivity. Qed.

Lemma check_status_witness :
  check Demo.source Demo.rt JNull
  = inr {| status := FAILED; status_message := Some "bad password" |}
  /\ check Demo.source Demo.rt (JObj [])
     = inr {| status := SUCCEEDED; status_message := None |}.
Proof.
  split.
  - exact (proj1 (check_status Demo.source Demo.rt JNull) (JStr "bad password") eq_refl).
  - exact (proj2 (check_status Demo.source Demo.rt (JObj [])) JNull eq_refl).
Defined.

(** C10.  The time stamp of every [RECORD] message that [read] yields is a
    clock reading cut to whole seconds and then multiplied by 1000: a multiple
    of 1000, whatever the fraction of a second on the clock. *)
Theorem emitted_at_whole_seconds (self : Source) (rt : Runtime) (config : json)
    (catalog : list ConfiguredAirbyteStream) (state : option (gmap string json))
    (r : AirbyteRecordMessage) :
  RECORD r ∈ yielded (read self rt config catalog state).1.1 ->
  (exists k, emitted_at r = int (timestamp rt k) * 1000)
  /\ emitted_at r mod 1000 = 0.
Proof.
  intros (ev & Hev & Hyield)%list_elem_of_omap.
  destruct ev as [m | m]; simplify_eq.
  assert (Hall : Forall (whole_second rt) (read self rt config catalog state).1.1).
  { apply read_events; [done | done |]. intros. by eexists. }
  rewrite Forall_forall in Hall. destruct (Hall _ Hev) as [k Hk].
  split; [by exists k |]. rewrite Hk. apply Z.mod_mul. lia.
Qed.

Lemma emitted_at_whole_seconds_witness :
  let r := {| record_stream := "users"; record_data := JStr "bob";
              emitted_at := 1700000001000 |} in
  RECORD r ∈ yielded (read Demo.source Demo.rt JNull
                        [Demo.configured "users" full_refresh] None).1.1
  /\ emitted_at r mod 1000 = 0.
Proof.
  intros r.
  assert (Hin : RECORD r ∈ yielded (read Demo.source Demo.rt JNull
                                     [Demo.configured "users" full_refresh] None).1.1).
  { vm_compute. do 2 constructor. }
  split; [exact Hin |].
  exact (proj2 (emitted_at_whole_seconds Demo.source Demo.rt JNull _ None r Hin)).
Defined.



(** C3.  A configured stream that asks for [incremental] while its
    implementation is not incremental is extracted in full: [_read_stream]
    logs, pulls with the empty state and yields one [RECORD] per record
    pulled, no [STATE] message, and leaves the aggregate as it was.  The
    [STATE] messages of the whole run are then the ones of the run without
    that stream. *)
Theorem fallback_full_extraction (self : Source) (rt : Runtime) (config : json)
    (configured_stream : ConfiguredAirbyteStream) (stream_instance : Stream) :
  let stream_name := Protocol.name (stream configured_stream) in
  let pulled := read_stream stream_instance (JObj []) in
  getitem (streams self config) stream_name = inr stream_instance ->
  sync_mode configured_stream = incremental ->
  as_incremental stream_instance = None ->
  (forall s,
     let run := _read_stream self rt config configured_stream s in
     run.1.1 = Print (Logger.info ("Syncing " +:+ stream_name +:+ " stream"))
               :: record_events rt stream_name pulled.1 s
     /\ states run.1.1 = []
     /\ total_state run.1.2 = total_state s
     /\ run.2 = match pulled.2 with Some e => Raised e | None => Returned tt end)
  /\ (pulled.2 = None ->
      forall pre post state,
        states (read self rt config (pre ++ configured_stream :: post) state).1.1
        = states (read self rt config (pre ++ post) state).1.1).
Proof.
  intros stream_name pulled Hfound Hmode Hplain.
  assert (Hrun : forall s,
             let run := _read_stream self rt config configured_stream s in
             run.1.1 = Print (Logger.info ("Syncing " +:+ stream_name +:+ " stream"))
                       :: record_events rt stream_name pulled.1 s
             /\ states run.1.1 = []
             /\ total_state run.1.2 = total_state s
             /\ run.2 = match pulled.2 with Some e => Raised e | None => Returned tt end).
  { intros s run. subst run.
    rewrite (_read_stream_found _ _ _ _ stream_instance) by done.
    assert (Hui : use_incremental_of configured_stream stream_instance = None).
    { unfold use_incremental_of. rewrite Hplain. by destruct (decide _). }
    rewrite Hui. fold stream_name.
    change (seed_state None stream_name s) with (JObj []). fold pulled.
    change (opening rt None stream_name s)
      with [Print (Logger.info ("Syncing " +:+ stream_name +:+ " stream"))].
    destruct (read_loop_full_run rt stream_name pulled.1 pulled.2 (JObj []) 0 s)
      as (Hout & Hstate & Hres).
    destruct (read_loop _ _ _ _ _ _ _ _) as [[out s1] r]. cbn [fst snd] in *. subst.
    destruct pulled.2; cbn [fst snd app truthy]; rewrite ?andb_false_r;
      cbn [fst snd app];
      change (states (Print ?m :: ?l)) with (states l);
      by rewrite states_record_events. }
  split; [exact Hrun |].
  intros Hdone pre post state. rewrite !read_unfold, !read_streams_app.
  destruct (read_streams self rt config pre (initial state)) as [[out1 s1] [[] | e]];
    [| reflexivity].
  rewrite read_streams_cons.
  destruct (Hrun s1) as (Hout & Hstates & Htotal & Hres). rewrite Hdone in Hres.
  destruct (_read_stream self rt config configured_stream s1) as [[out s2] r].
  cbn [fst snd] in *. subst r.
  destruct (read_streams_same_states self rt config post s2 s1 Htotal)
    as (Hsame & _ & Hend).
  destruct (read_streams self rt config post s2) as [[out2 t2] r2].
  destruct (read_streams self rt config post s1) as [[out3 t3] r3].
  cbn [fst snd] in *. subst r3.
  destruct r2 as [[] | e]; cbn [fst snd];
    change (states (?ev :: ?l)) with (states l);
    rewrite ?states_app, Hstates, Hsame; reflexivity.
Qed.

Lemma fallback_full_extraction_witness :
  let run := _read_stream Demo.source Demo.rt JNull (Demo.configured "users" incremental)
               (initial (Some {["events" := JObj [("id", JNum 7)]]})) in
  yielded run.1.1
  = [RECORD {| record_stream := "users"; record_data := JStr "ann";
               emitted_at := 1700000000000 |};
     RECORD {| record_stream := "users"; record_data := JStr "bob";
               emitted_at := 1700000001000 |}]
  /\ states run.1.1 = []
  /\ total_state run.1.2 = {["events" := JObj [("id", JNum 7)]]}.
Proof.
  intros run.
  destruct (fallback_full_extraction Demo.source Demo.rt JNull
              (Demo.configured "users" incremental) Demo.users
              eq_refl eq_refl eq_refl) as [Hrun _].
  destruct (Hrun (initial (Some {["events" := JObj [("id", JNum 7)]]})))
    as (Hout & Hstates & Htotal & _).
  split; [| split; [exact Hstates | exact Htotal]].
  subst run. rewrite Hout. reflexivity.
Defined.

Lemma use_incremental_of_incremental configured_stream stream_instance :
  sync_mode configured_stream = incremental ->
  use_incremental_of configured_stream stream_instance = as_incremental stream_instance.
Proof. intros Hmode. unfold use_incremental_of. by destruct (decide _). Qed.

(** C2.  In an incremental read, however it ends, the messages of
    [_read_stream] are those of the loop over the records, followed only by
    the final [STATE] message when the loop ends without an exception and
    leaves a state that is not empty.  [folded] is the number of records
    whose state was folded: all of them unless [get_updated_state] raises.
    Among the messages of the loop, a [STATE] message comes right after the
    [N]-th [RECORD], for a record whose state was folded, exactly when
    [continuously_save_state] holds and [N] is a multiple of 100; none
    comes after a record whose state was not folded; so with the flag set
    there is one such message for every 100 records folded. *)
Theorem checkpoint_every_100 (self : Source) (rt : Runtime) (config : json)
    (configured_stream : ConfiguredAirbyteStream) (stream_instance : Stream)
    (incremental_stream : IncrementalStream) (s : store) :
  let stream_name := Protocol.name (stream configured_stream) in
  let stream_state := seed_state (Some incremental_stream) stream_name s in
  let pulled := read_stream stream_instance stream_state in
  let loop := read_loop rt stream_name (Some incremental_stream) pulled.1 pulled.2
                stream_state 0 s in
  let folded := folded_count incremental_stream stream_state pulled.1 in
  getitem (streams self config) stream_name = inr stream_instance ->
  sync_mode configured_stream = incremental ->
  as_incremental stream_instance = Some incremental_stream ->
  yielded (_read_stream self rt config configured_stream s).1.1
  = yielded loop.1.1
    ++ match loop.2 with
       | Returned final =>
           if truthy final
           then [STATE (<[stream_name := final]> (total_state loop.1.2))] else []
       | Raised _ => []
       end
  /\ count_records (yielded loop.1.1) = Nat.min (S folded) (length pulled.1)
  /\ (forall N, (1 <= N <= folded)%nat ->
        state_follows N (yielded loop.1.1)
        = continuously_save_state incremental_stream && (Z.of_nat N mod 100 =? 0))
  /\ (forall N, (folded < N)%nat -> state_follows N (yielded loop.1.1) = false)
  /\ Z.of_nat (count_states (yielded loop.1.1))
     = (if continuously_save_state incremental_stream then Z.of_nat folded / 100 else 0)
  /\ ((_read_stream self rt config configured_stream s).2 = Returned tt ->
      folded = length pulled.1 /\ exists final, loop.2 = Returned final).
Proof.
  intros stream_name stream_state pulled loop folded Hfound Hmode Hinc.
  rewrite (_read_stream_found _ _ _ _ stream_instance) by done.
  rewrite use_incremental_of_incremental, Hinc by done.
  fold stream_name stream_state pulled loop.
  destruct (read_loop_checkpoints_any rt stream_name incremental_stream pulled.1 pulled.2
              stream_state 0 s ltac:(lia)) as (Hrecords & Hfollows & Hafter & Hstates).
  fold loop folded in Hrecords, Hfollows, Hafter, Hstates.
  rewrite Z.add_0_l in Hstates. change (0 / 100) with 0 in Hstates.
  rewrite Z.sub_0_r in Hstates.
  pose proof (read_loop_outcome rt stream_name incremental_stream pulled.1 pulled.2
                stream_state 0 s) as Hend.
  fold loop in Hend.
  split; [| split; [exact Hrecords | split; [exact Hfollows |
            split; [exact Hafter | split; [exact Hstates |]]]]].
  - destruct loop as [[loop_out s1] [final | e]]; cbn [fst snd].
    + rewrite bool_decide_eq_true_2 by eauto. cbn [andb].
      destruct (truthy final); cbn [fst];
        by rewrite ?yielded_app, yielded_opening, ?app_nil_r.
    + by rewrite yielded_app, yielded_opening, app_nil_r.
  - destruct loop as [[loop_out s1] [final | e]]; cbn [fst snd] in *; [| done].
    intros _. split; [| by eexists].
    destruct (fold_state incremental_stream stream_state pulled.1) as [e | final'] eqn:Hfold;
      [done |].
    by apply (folded_count_all _ _ _ final').
Qed.

Lemma checkpoint_every_100_witness :
  let loop := read_loop Demo.rt "events" (Some Demo.events_incremental)
                (read_stream Demo.events (JObj [])).1 None (JObj []) 0 (initial None) in
  let cut := read_loop Demo.rt "choking" (Some Demo2.choking_incremental)
               (read_stream Demo2.choking (JObj [])).1 None (JObj []) 0 (initial None) in
  (state_follows 100 (yielded loop.1.1) = true
   /\ state_follows 150 (yielded loop.1.1) = false
   /\ Z.of_nat (count_states (yielded loop.1.1)) = 2)
  /\ (state_follows 100 (yielded cut.1.1) = true
      /\ state_follows 120 (yielded cut.1.1) = false
      /\ count_records (yielded cut.1.1) = 120%nat
      /\ Z.of_nat (count_states (yielded cut.1.1)) = 1).
Proof.
  intros loop cut. split.
  - destruct (checkpoint_every_100 Demo.source Demo.rt JNull
                (Demo.configured "events" incremental) Demo.events
                Demo.events_incremental (initial None) eq_refl eq_refl eq_refl)
      as (_ & _ & Hfollows & _ & Hstates & _).
    split; [exact (Hfollows 100%nat ltac:(vm_compute; lia)) |].
    split; [exact (Hfollows 150%nat ltac:(vm_compute; lia)) | exact Hstates].
  - destruct (checkpoint_every_100 Demo2.source Demo.rt JNull
                (Demo.configured "choking" incremental) Demo2.choking
                Demo2.choking_incremental (initial None) eq_refl eq_refl eq_refl)
      as (_ & Hrecords & Hfollows & Hafter & Hstates & _).
    split; [exact (Hfollows 100%nat ltac:(vm_compute; lia)) |].
    split; [exact (Hafter 120%nat ltac:(vm_compute; lia)) |].
    split; [exact Hrecords | exact Hstates].
Defined.

(** C4, as the code has it.  When the streams before a configured stream
    are read without an exception and a fault ends the extraction of the
    stream (raised by a pull, or by [get_updated_state] on a record just
    yielded), [_read_stream] raises that fault: it has yielded the records
    up to the fault and no [STATE] message but the checkpoints made before
    it.  The run of [read] ends there with the same fault: nothing of the
    streams that follow is emitted, and the end of the run is not logged.
    An instance of [Exception] is logged before, at level [ERROR], with the
    trace; an exception that derives from [BaseException] only goes through
    unlogged. *)
Theorem read_aborts_on_exception (self : Source) (rt : Runtime) (config : json)
    (pre : list ConfiguredAirbyteStream) (configured_stream : ConfiguredAirbyteStream)
    (post : list ConfiguredAirbyteStream) (state : option (gmap string json))
    (out1 : list event) (s1 : store) (stream_instance : Stream) (e : exn)
    (n folded : nat) :
  let stream_name := Protocol.name (stream configured_stream) in
  let use_incremental := use_incremental_of configured_stream stream_instance in
  let stream_state := seed_state use_incremental stream_name s1 in
  let pulled := read_stream stream_instance stream_state in
  let failed := _read_stream self rt config configured_stream s1 in
  read_streams self rt config pre (initial state) = (out1, s1, Returned tt) ->
  getitem (streams self config) stream_name = inr stream_instance ->
  extraction_fault use_incremental stream_state pulled.1 pulled.2 e n folded ->
  failed.2 = Raised e
  /\ count_records (yielded failed.1.1) = n
  /\ Z.of_nat (count_states (yielded failed.1.1)) = checkpoints use_incremental folded
  /\ read self rt config (pre ++ configured_stream :: post) state
     = (Print (Logger.info ("Starting syncing " +:+ name self))
          :: out1 ++ failed.1.1
          ++ (if is_Exception e then [exception_line self rt e] else []),
        failed.1.2, Raised e)
  /\ exception_line self rt e
     = Print (LOG {| level := "ERROR";
                     message := ("Encountered an exception while reading stream "
                                 +:+ name self)
                                +:+ String (Ascii.ascii_of_nat 10) (format_exc rt e) |}).
Proof.
  intros stream_name use_incremental stream_state pulled failed Hpre Hfound Hfault.
  assert (Hfailed : failed.2 = Raised e
                    /\ count_records (yielded failed.1.1) = n
                    /\ Z.of_nat (count_states (yielded failed.1.1))
                       = checkpoints use_incremental folded).
  { subst failed. rewrite (_read_stream_found _ _ _ _ stream_instance) by done.
    fold stream_name use_incremental stream_state pulled.
    destruct (read_loop_fault rt stream_name use_incremental pulled.1 pulled.2
                stream_state s1 e n folded Hfault) as (Hend & Hrecords & Hstates).
    destruct (read_loop _ _ _ _ _ _ _ _) as [[out s2] r]. cbn [fst snd] in *. subst r.
    cbn [fst snd]. by rewrite yielded_app, yielded_opening. }
  destruct Hfailed as (Hend & Hrecords & Hstates).
  split; [exact Hend |]. split; [exact Hrecords |]. split; [exact Hstates |].
  split; [| reflexivity].
  rewrite read_unfold, read_streams_app, Hpre, read_streams_cons.
  subst failed.
  destruct (_read_stream self rt config configured_stream s1) as [[out2 s2] r].
  cbn [fst snd] in *. subst r. reflexivity.
Qed.

Lemma read_aborts_on_exception_witness :
  let run := read Demo.source Demo.rt JNull
               [Demo.configured "users" full_refresh; Demo.configured "flaky" full_refresh;
                Demo.configured "events" incremental] None in
  let cut := read Demo2.source Demo.rt JNull
               [Demo.configured "choking" incremental; Demo.configured "idle" incremental]
               None in
  (run.2 = Raised (ExceptionInstance "ConnectionError" "reset by peer")
   /\ fault_logged Demo.source Demo.rt run
   /\ length (yielded run.1.1) = 3%nat)
  /\ (cut.2 = Raised (ExceptionInstance "ValueError" "bad cursor")
      /\ fault_logged Demo2.source Demo.rt cut).
Proof.
  intros run cut. split.
  - pose (pre := read_streams Demo.source Demo.rt JNull
                   [Demo.configured "users" full_refresh] (initial None)).
    destruct (read_aborts_on_exception Demo.source Demo.rt JNull
                [Demo.configured "users" full_refresh]
                (Demo.configured "flaky" full_refresh)
                [Demo.configured "events" incremental] None
                pre.1.1 pre.1.2 Demo.flaky
                (ExceptionInstance "ConnectionError" "reset by peer") 1 1
                ltac:(vm_compute; reflexivity) eq_refl
                (fault_in_pull None (JObj []) [JNum 1]
                   (Some (ExceptionInstance "ConnectionError" "reset by peer")) _
                   (conj eq_refl I)))
      as (_ & _ & _ & Hrun & _).
    change (read _ _ _ _ _) with run in Hrun. rewrite Hrun.
    split; [reflexivity |]. split; [| vm_compute; reflexivity].
    intros e [= <-]. vm_compute. reflexivity.
  - assert (Hfold : fold_fault (Some Demo2.choking_incremental) (JObj [])
                      (read_stream Demo2.choking (JObj [])).1 119
                      (ExceptionInstance "ValueError" "bad cursor")).
    { exists Demo2.choking_incremental, (JObj [("id", JNum 119)]), (JNum 120).
      split; [reflexivity |]. split; [vm_compute; reflexivity |].
      split; [vm_compute; reflexivity | reflexivity]. }
    destruct (read_aborts_on_exception Demo2.source Demo.rt JNull
                [] (Demo.configured "choking" incremental)
                [Demo.configured "idle" incremental] None
                [] (initial None) Demo2.choking
                (ExceptionInstance "ValueError" "bad cursor") 120 119
                eq_refl eq_refl
                (fault_in_fold _ _ _ None _ 119%nat Hfold))
      as (_ & _ & _ & Hrun & _).
    change (read _ _ _ _ _) with cut in Hrun. rewrite Hrun.
    split; [reflexivity |].
    intros e [= <-]. vm_compute. reflexivity.
Defined.

(** C4, as it is worded, fails for an exception that is not an instance of
    [Exception]: a keyboard interrupt during a pull ends the run and is not
    logged. *)
Lemma read_interrupt_not_logged :
  let run := read Demo.source Demo.rt JNull
               [Demo.configured "interrupted" full_refresh] None in
  run.2 = Raised (BaseExceptionInstance "KeyboardInterrupt" EmptyString)
  /\ ~ fault_logged Demo.source Demo.rt run.
Proof.
  intros run. split; [vm_compute; reflexivity |].
  intros Hlogged.
  specialize (Hlogged (BaseExceptionInstance "KeyboardInterrupt" EmptyString)
                ltac:(vm_compute; reflexivity)).
  vm_compute in Hlogged. discriminate.
Qed.

(** C5.  For a configured stream whose name is not a key of
    [streams(config)], [_read_stream] raises [KeyError] at once: it emits
    nothing, pulls nothing and leaves the store as it is.  A run of [read]
    over a catalog with such a stream never ends normally and yields no
    record under that name; when the streams before it are read without an
    exception, the run ends with that [KeyError], logged, right after
    them. *)
Theorem read_unknown_stream (self : Source) (rt : Runtime) (config : json)
    (pre : list ConfiguredAirbyteStream) (configured_stream : ConfiguredAirbyteStream)
    (post : list ConfiguredAirbyteStream) (state : option (gmap string json)) :
  let stream_name := Protocol.name (stream configured_stream) in
  let run := read self rt config (pre ++ configured_stream :: post) state in
  (list_to_map (streams self config) : gmap string Stream) !! stream_name = None ->
  (forall s, _read_stream self rt config configured_stream s
             = ([], s, Raised (KeyError stream_name)))
  /\ (exists e, run.2 = Raised e)
  /\ (forall r, RECORD r ∈ yielded run.1.1 -> record_stream r <> stream_name)
  /\ (forall out1 s1,
        read_streams self rt config pre (initial state) = (out1, s1, Returned tt) ->
        run = (Print (Logger.info ("Starting syncing " +:+ name self))
                 :: out1 ++ [exception_line self rt (KeyError stream_name)],
               s1, Raised (KeyError stream_name))).
Proof.
  intros stream_name run Hmissing.
  assert (Hget : getitem (streams self config) stream_name = inl (KeyError stream_name)).
  { unfold getitem. by rewrite Hmissing. }
  assert (Hraise : forall s, _read_stream self rt config configured_stream s
                             = ([], s, Raised (KeyError stream_name))).
  { intros s. by apply _read_stream_missing. }
  split; [exact Hraise |]. split; [| split].
  - subst run. rewrite read_unfold, read_streams_app.
    destruct (read_streams self rt config pre (initial state)) as [[out1 s1] [[] | e]];
      [| by eexists].
    rewrite read_streams_cons, Hraise. by eexists.
  - intros r (ev & Hev & Hyield)%list_elem_of_omap.
    destruct ev as [m | m]; simplify_eq.
    assert (Hall : Forall (fun ev => match ev with
                                     | Yield (RECORD r) => record_stream r <> stream_name
                                     | _ => True
                                     end) run.1.1).
    { apply read_events; [done | done |].
      intros other stream_instance record s0 Hother Hsame. cbn in Hsame.
      rewrite Hsame in Hother. congruence. }
    rewrite Forall_forall in Hall. exact (Hall _ Hev).
  - intros out1 s1 Hpre. subst run.
    by rewrite read_unfold, read_streams_app, Hpre, read_streams_cons, Hraise.
Qed.

Lemma read_unknown_stream_witness :
  read Demo.source Demo.rt JNull
    [Demo.configured "users" full_refresh; Demo.configured "orders" incremental;
     Demo.configured "events" incremental] None
  = (Print (Logger.info "Starting syncing DemoSource")
       :: (read_streams Demo.source Demo.rt JNull
             [Demo.configured "users" full_refresh] (initial None)).1.1
       ++ [exception_line Demo.source Demo.rt (KeyError "orders")],
     {| total_state := ∅; clock_reads := 2 |}, Raised (KeyError "orders")).
Proof.
  destruct (read_unknown_stream Demo.source Demo.rt JNull
              [Demo.configured "users" full_refresh] (Demo.configured "orders" incremental)
              [Demo.configured "events" incremental] None
              ltac:(vm_compute; reflexivity)) as (_ & _ & _ & Hrun).
  exact (Hrun _ _ ltac:(vm_compute; reflexivity)).
Defined.

End SourceProps.

(** ** More on the loggers *)

Module LoggerMoreProps.
Import Str Words Logger LoggerRest MoreWords StrFacts.

Lemma level_mapping_known (n : Z) (w : string) :
  level_mapping !! n = Some w -> w ∈ valid_log_types /\ getLevelName w = inl n.
Proof.
  intros H. apply elem_of_list_to_map_2 in H.
  rewrite !elem_of_cons, elem_of_nil in H.
  destruct H as [H | [H | [H | [H | [H | [H | []]]]]]]; injection H as -> ->;
    (split; [unfold valid_log_types; rewrite !elem_of_cons; tauto | reflexivity]).
Qed.

(** X1.  [AirbyteLogFormatter.format] always gives the message one of the
    six Airbyte levels: for a level number that [level_mapping] lists, the
    name it has there ([FATAL] for [logging.FATAL], [ERROR] for
    [logging.ERROR], [WARN] for [logging.WARNING], [INFO] for
    [logging.INFO], [DEBUG] for [logging.DEBUG], [TRACE] for
    [TRACE_LEVEL_NUM]), and [INFO] for every other number. *)
Theorem format_level_known (_secrets : list string) (record : LogRecord) :
  log_level (format _secrets record) ∈ valid_log_types
  /\ (forall w,
        (levelno record, w) ∈ [(logging_FATAL, "FATAL"); (logging_ERROR, "ERROR");
                               (logging_WARNING, "WARN"); (logging_INFO, "INFO");
                               (logging_DEBUG, "DEBUG"); (TRACE_LEVEL_NUM, "TRACE")] ->
        log_level (format _secrets record) = w)
  /\ (levelno record ∉ [logging_FATAL; logging_ERROR; logging_WARNING; logging_INFO;
                        logging_DEBUG; TRACE_LEVEL_NUM] ->
      log_level (format _secrets record) = "INFO").
Proof.
  unfold format. cbn [log_level level]. split; [| split].
  - destruct (level_mapping !! levelno record) as [w |] eqn:Hlevel; cbn [default].
    + by apply (level_mapping_known (levelno record)).
    + unfold valid_log_types. rewrite !elem_of_cons. tauto.
  - intros w. rewrite !elem_of_cons, elem_of_nil.
    intros [H | [H | [H | [H | [H | [H | []]]]]]]; injection H as -> ->; reflexivity.
  - intros Hother.
    destruct (level_mapping !! levelno record) as [w |] eqn:Hlevel; [| done].
    exfalso. apply Hother.
    apply elem_of_list_to_map_2 in Hlevel.
    rewrite !elem_of_cons, elem_of_nil in Hlevel. rewrite !elem_of_cons.
    destruct Hlevel as [H | [H | [H | [H | [H | [H | []]]]]]]; injection H as -> _; tauto.
Qed.

Lemma format_level_known_witness :
  log_level (format ["pw"] {| levelno := 30; msg := "x" |}) = "WARN"
  /\ log_level (format ["pw"] {| levelno := 25; msg := "x" |}) = "INFO".
Proof.
  split.
  - apply (proj1 (proj2 (format_level_known ["pw"] {| levelno := 30; msg := "x" |}))).
    do 3 constructor.
  - apply (proj2 (proj2 (format_level_known ["pw"] {| levelno := 25; msg := "x" |}))).
    apply (proj1 (bool_decide_eq_false _)). reflexivity.
Defined.

(** X2.  [valid_log_types] and [level_mapping] name the same levels:
    [logging.getLevelName] gives every valid name a number that
    [level_mapping] turns back into that name, and every name in
    [level_mapping] is a valid one that [logging.getLevelName] turns back
    into its number. *)
Theorem level_names_round_trip :
  (forall w, w ∈ valid_log_types ->
     exists n, getLevelName w = inl n /\ level_mapping !! n = Some w)
  /\ (forall n w, level_mapping !! n = Some w ->
      w ∈ valid_log_types /\ getLevelName w = inl n).
Proof.
  split; [| apply level_mapping_known].
  unfold valid_log_types. intros w. rewrite !elem_of_cons, elem_of_nil.
  intros [-> | [-> | [-> | [-> | [-> | [-> | []]]]]]]; eexists; split; reflexivity.
Qed.

Lemma level_names_round_trip_witness :
  exists n, getLevelName "WARN" = inl n /\ level_mapping !! n = Some "WARN".
Proof. exact (proj1 level_names_round_trip "WARN" ltac:(do 3 constructor)). Defined.

Lemma length_append (s t : string) :
  String.length (s +:+ t) = (String.length s + String.length t)%nat.
Proof.
  induction s as [|c s IH]; [reflexivity |].
  rewrite append_cons. cbn [String.length]. by rewrite IH.
Qed.

Lemma replace_empty_length (new s : string) :
  String.length (replace_empty new s)
  = (String.length s + (String.length s + 1) * String.length new)%nat.
Proof.
  induction s as [|c s IH]; cbn [replace_empty String.length].
  - lia.
  - rewrite length_append. cbn [String.length]. rewrite IH. lia.
Qed.

(** X3.  An empty secret is not skipped.  Python's [replace] of the empty
    string puts the mask before every character and at the end, so with an
    empty secret last in the list the text is five times as long as it
    would have been, and four more. *)
Theorem format_empty_secret (_secrets : list string) (text : string) :
  String.length (formatted (_secrets ++ [EmptyString]) text)
  = (5 * String.length (formatted _secrets text) + 4)%nat.
Proof.
  unfold formatted, format. cbn [log_text message Formatter_format msg].
  unfold redact. rewrite fold_left_app. cbn [fold_left replace].
  rewrite replace_empty_length. cbn [mask String.length]. lia.
Qed.

(** X4.  Formatting twice is formatting once, when no secret is empty and
    none has a star: the second pass finds nothing to replace. *)
Theorem format_twice (_secrets : list string) (text : string) :
  Forall (fun secret => secret <> EmptyString /\ star_free secret = true) _secrets ->
  formatted _secrets (formatted _secrets text) = formatted _secrets text.
Proof.
  intros Hsecrets. unfold formatted, format.
  cbn [log_text message Formatter_format msg].
  apply redact_id. rewrite Forall_forall in Hsecrets |- *.
  intros secret Hin. destruct (Hsecrets secret Hin) as [Hne Hsf].
  split; [done |]. by apply redact_removes.
Qed.

Lemma format_twice_witness :
  formatted ["key"; "key123"] (formatted ["key"; "key123"] "the key123 is key")
  = formatted ["key"; "key123"] "the key123 is key".
Proof.
  apply format_twice. repeat constructor; done.
Defined.

(** X5.  [AirbyteNativeLogger.log_by_prefix] logs one message whatever the
    text and the default level are: the name it hands to
    [logging.getLevelName] is always a registered one, so [log] gets a number
    (it does not raise) that is not below the threshold of the logger (the
    record is not dropped), and the level of the message is one of
    [valid_log_types]. *)
Theorem native_log_by_prefix_total (_secrets : list string)
    (message default_level : string) :
  exists l, native_log_by_prefix _secrets message default_level = inr (Some (LOG l))
            /\ level l ∈ valid_log_types.
Proof.
  unfold native_log_by_prefix.
  destruct (in_valid_log_types (head (split message))) eqn:Hknown.
  - destruct (head (split message)) as [w |]; [| done].
    cbn in Hknown. apply bool_decide_eq_true in Hknown.
    eexists. split; [by apply LoggerProps.native_log_known | done].
  - assert (Hlevel : (if bool_decide (default_level ∈ valid_log_types)
                      then default_level else "INFO") ∈ valid_log_types).
    { case_bool_decide; [done | do 4 constructor]. }
    eexists. split; [by apply LoggerProps.native_log_known | done].
Qed.

(** X6.  With no secret to hide and a default level that is a valid level
    name, [AirbyteNativeLogger.log_by_prefix] logs the very message that
    [AirbyteLogger.log_by_prefix] prints. *)
Theorem loggers_agree (message default_level : string) :
  default_level ∈ valid_log_types ->
  native_log_by_prefix [] message default_level
  = inr (Some (log_by_prefix message default_level)).
Proof.
  intros Hdefault. unfold native_log_by_prefix, log_by_prefix.
  destruct (in_valid_log_types (head (split message))) eqn:Hknown.
  - destruct (head (split message)) as [w |]; [| done].
    cbn in Hknown. apply bool_decide_eq_true in Hknown.
    by rewrite LoggerProps.native_log_known.
  - rewrite bool_decide_eq_true_2 by done.
    by rewrite LoggerProps.native_log_known.
Qed.

Lemma loggers_agree_witness :
  native_log_by_prefix [] "WARN  low   disk" "DEBUG"
  = inr (Some (LOG {| level := "WARN"; message := "low disk" |})).
Proof. exact (loggers_agree "WARN  low   disk" "DEBUG" ltac:(do 5 constructor)). Defined.

(** X7.  [AirbyteLogger.log_by_prefix] keeps the words of the message:
    split at white space, the logged text has the tokens of the message,
    without the first one when that is a valid level name. *)
Theorem log_by_prefix_tokens (message default_level : string) :
  split (log_text (log_by_prefix message default_level))
  = if in_valid_log_types (head (split message))
    then tail (split message) else split message.
Proof.
  unfold log_by_prefix.
  destruct (in_valid_log_types (head (split message))); cbn [log_text log Protocol.message];
    [| done].
  apply split_join. pose proof (split_tokens message) as Htokens.
  destruct (split message); [done |]. by inversion Htokens.
Qed.


End LoggerMoreProps.

(** ** More on the runs of the source *)

Module SourceMoreProps.
Import Streams AbstractSource Words MoreWords SourceFacts.

(** X9.  Every descriptor that [discover] returns is consistent:
    [full_refresh] is among its sync modes, no mode is listed twice,
    [incremental] is listed exactly when [source_defined_cursor] is set, and
    [source_defined_cursor] is set exactly when [default_cursor_field]
    is. *)
Theorem discover_descriptor_consistent (self : Source) (config : json)
    (descriptor : AirbyteStream) :
  descriptor ∈ discover self config ->
  full_refresh ∈ supported_sync_modes descriptor
  /\ NoDup (supported_sync_modes descriptor)
  /\ (incremental ∈ supported_sync_modes descriptor
      <-> is_Some (Protocol.source_defined_cursor descriptor))
  /\ (is_Some (Protocol.source_defined_cursor descriptor)
      <-> is_Some (default_cursor_field descriptor)).
Proof.
  rewrite SourceProps.discover_map. intros ([stream_name stream_instance] & -> & _)%list_elem_of_fmap.
  unfold discover_stream.
  destruct (as_incremental stream_instance); cbn.
  - split; [by constructor |]. split.
    + apply NoDup_cons_2; [| apply NoDup_singleton].
      rewrite elem_of_cons, elem_of_nil. intros [? | []]. discriminate.
    + split; split; intros _; eauto. do 2 constructor.
  - split; [by constructor |]. split.
    + apply NoDup_singleton.
    + split; split.
      * rewrite elem_of_cons, elem_of_nil. intros [? | []]. discriminate.
      * by intros [? ?].
      * by intros [? ?].
      * by intros [? ?].
Qed.

Lemma discover_descriptor_consistent_witness :
  exists descriptor,
    descriptor ∈ discover Demo.source JNull
    /\ Protocol.name descriptor = "users"
    /\ (incremental ∈ supported_sync_modes descriptor
        <-> is_Some (Protocol.source_defined_cursor descriptor)).
Proof.
  assert (Hin : discover_stream ("users", Demo.users) ∈ discover Demo.source JNull)
    by (vm_compute; do 2 constructor).
  exists (discover_stream ("users", Demo.users)).
  split; [exact Hin |]. split; [reflexivity |].
  exact (proj1 (proj2 (proj2 (discover_descriptor_consistent Demo.source JNull _ Hin)))).
Defined.

Lemma use_incremental_of_full_refresh configured_stream stream_instance :
  sync_mode configured_stream = full_refresh ->
  use_incremental_of configured_stream stream_instance = None.
Proof. intros Hmode. unfold use_incremental_of. rewrite Hmode. by destruct (decide _). Qed.

(** X10.  A stream configured as [full_refresh] is extracted in full, also
    when it is an incremental stream with a saved state: [read_stream] gets
    the empty state, the run prints the [Syncing] line and yields one
    [RECORD] per record, no [STATE] message at all, the aggregate state is
    left as it was, and the run ends as the record sequence ends. *)
Theorem full_refresh_extraction (self : Source) (rt : Runtime) (config : json)
    (configured_stream : ConfiguredAirbyteStream) (stream_instance : Stream) (s : store) :
  let stream_name := Protocol.name (stream configured_stream) in
  let pulled := read_stream stream_instance (JObj []) in
  let run := _read_stream self rt config configured_stream s in
  getitem (streams self config) stream_name = inr stream_instance ->
  sync_mode configured_stream = full_refresh ->
  run.1.1 = Print (Logger.info ("Syncing " +:+ stream_name +:+ " stream"))
            :: record_events rt stream_name pulled.1 s
  /\ states run.1.1 = []
  /\ total_state run.1.2 = total_state s
  /\ run.2 = match pulled.2 with Some e => Raised e | None => Returned tt end.
Proof.
  intros stream_name pulled run Hfound Hmode. subst run.
  rewrite (_read_stream_found _ _ _ _ stream_instance) by done.
  rewrite use_incremental_of_full_refresh by done. fold stream_name.
  change (seed_state None stream_name s) with (JObj []). fold pulled.
  change (opening rt None stream_name s)
    with [Print (Logger.info ("Syncing " +:+ stream_name +:+ " stream"))].
  destruct (read_loop_full_run rt stream_name pulled.1 pulled.2 (JObj []) 0 s)
    as (Hout & Hstate & Hres).
  destruct (read_loop _ _ _ _ _ _ _ _) as [[out s1] r]. cbn [fst snd] in *. subst.
  destruct pulled.2; cbn [fst snd app truthy]; rewrite ?andb_false_r;
    cbn [fst snd app];
    change (states (Print ?m :: ?l)) with (states l);
    by rewrite states_record_events.
Qed.

Lemma full_refresh_extraction_witness :
  let run := _read_stream Demo.source Demo.rt JNull (Demo.configured "events" full_refresh)
               (initial (Some {["events" := JObj [("id", JNum 7)]]})) in
  length (yielded run.1.1) = 250%nat
  /\ states run.1.1 = []
  /\ total_state run.1.2 = {["events" := JObj [("id", JNum 7)]]}.
Proof.
  intros run.
  destruct (full_refresh_extraction Demo.source Demo.rt JNull
              (Demo.configured "events" full_refresh) Demo.events
              (initial (Some {["events" := JObj [("id", JNum 7)]]})) eq_refl eq_refl)
    as (Hout & Hstates & Htotal & _).
  split; [| split; [exact Hstates | exact Htotal]].
  subst run. rewrite Hout. vm_compute. reflexivity.
Defined.

(** *** The records of a run *)

Lemma records_of_app out1 out2 :
  records_of (out1 ++ out2) = records_of out1 ++ records_of out2.
Proof. apply omap_app. Qed.

Lemma records_of_opening rt use_incremental stream_name s :
  records_of (opening rt use_incremental stream_name s) = [].
Proof. unfold opening. by destruct (seeded _ _ _). Qed.

Lemma records_of_record_events rt stream_name records s :
  records_of (record_events rt stream_name records s)
  = imap (fun k record =>
            {| record_stream := stream_name; record_data := record;
               emitted_at := int (timestamp rt (clock_reads s + k)) * 1000 |}) records.
Proof.
  revert s. induction records as [|record records IH]; intros s; [done |].
  cbn [record_events]. change (records_of (record_event ?a ?b ?c ?d :: ?l))
    with ({| record_stream := b; record_data := c;
             emitted_at := int (timestamp a (clock_reads d)) * 1000 |} :: records_of l).
  rewrite IH. cbn [imap]. rewrite Nat.add_0_r. f_equal.
  apply imap_ext. intros k record' _. cbn [tick clock_reads compose].
  by rewrite Nat.add_succ_comm.
Qed.

Lemma record_events_clock rt stream_name records s1 s2 :
  clock_reads s1 = clock_reads s2 ->
  record_events rt stream_name records s1 = record_events rt stream_name records s2.
Proof.
  revert s1 s2. induction records as [|record records IH]; intros s1 s2 Hclock; [done |].
  cbn [record_events]. unfold record_event. rewrite Hclock. f_equal.
  apply IH. cbn. by rewrite Hclock.
Qed.

(** The [RECORD] messages of the loop are those of a plain extraction of
    the first [n] records; all the records, unless the loop raised. *)
Lemma read_loop_records rt stream_name use_incremental records raised stream_state c s :
  let run := read_loop rt stream_name use_incremental records raised stream_state c s in
  exists n, (n <= length records)%nat
    /\ records_of run.1.1 = records_of (record_events rt stream_name (take n records) s)
    /\ clock_reads run.1.2 = (clock_reads s + n)%nat
    /\ ((exists final, run.2 = Returned final) -> n = length records).
Proof.
  revert stream_state c s.
  induction records as [|record records IH]; intros stream_state c s.
  - rewrite read_loop_end. exists 0%nat. cbn.
    split; [lia |]. split; [done |]. split; [lia | done].
  - destruct use_incremental as [inc |].
    + rewrite read_loop_incremental.
      destruct (get_updated_state inc stream_state record) as [e | stream_state'].
      { exists 1%nat. cbn [fst snd length take record_events tick clock_reads].
        split; [lia |]. split; [done |]. split; [lia |]. by intros [? ?]. }
      destruct (continuously_save_state inc && ((c + 1) mod 100 =? 0)); cbv zeta.
      * destruct (IH stream_state' (c + 1) (merged stream_name stream_state' (tick s)))
          as (n & Hn & Hrecords & Hclock & Hall).
        destruct (read_loop _ _ _ _ _ _ _ _) as [[out s'] r]. cbn [fst snd] in *.
        exists (S n). cbn [take record_events length].
        change (records_of (?ev :: Yield (STATE ?d) :: out))
          with (records_of [ev] ++ records_of out).
        change (records_of (?ev :: record_events ?a ?b ?l ?t))
          with (records_of [ev] ++ records_of (record_events a b l t)).
        rewrite Hrecords, Hclock. cbn [merged tick clock_reads].
        rewrite (record_events_clock rt stream_name _ _ (tick s)) by done.
        split; [lia |]. split; [done |]. split; [lia |]. intros H. by rewrite Hall.
      * destruct (IH stream_state' (c + 1) (tick s))
          as (n & Hn & Hrecords & Hclock & Hall).
        destruct (read_loop _ _ _ _ _ _ _ _) as [[out s'] r]. cbn [fst snd] in *.
        exists (S n). cbn [take record_events length].
        change (records_of (?ev :: out)) with (records_of [ev] ++ records_of out).
        change (records_of (?ev :: record_events ?a ?b ?l ?t))
          with (records_of [ev] ++ records_of (record_events a b l t)).
        rewrite Hrecords, Hclock. cbn [tick clock_reads].
        split; [lia |]. split; [done |]. split; [lia |]. intros H. by rewrite Hall.
    + rewrite read_loop_full.
      destruct (IH stream_state (c + 1) (tick s)) as (n & Hn & Hrecords & Hclock & Hall).
      destruct (read_loop _ _ _ _ _ _ _ _) as [[out s'] r]. cbn [fst snd] in *.
      exists (S n). cbn [take record_events length].
      change (records_of (?ev :: out)) with (records_of [ev] ++ records_of out).
      change (records_of (?ev :: record_events ?a ?b ?l ?t))
        with (records_of [ev] ++ records_of (record_events a b l t)).
      rewrite Hrecords, Hclock. cbn [tick clock_reads].
      split; [lia |]. split; [done |]. split; [lia |]. intros H. by rewrite Hall.
Qed.

(** [_read_stream] adds no [RECORD] message to those of its loop and reads
    the clock only there. *)
Lemma _read_stream_records self rt config configured_stream stream_instance s :
  let stream_name := Protocol.name (stream configured_stream) in
  let pulled := read_stream stream_instance
                  (seed_state (use_incremental_of configured_stream stream_instance)
                     stream_name s) in
  let run := _read_stream self rt config configured_stream s in
  getitem (streams self config) stream_name = inr stream_instance ->
  exists n, (n <= length pulled.1)%nat
    /\ records_of run.1.1 = records_of (record_events rt stream_name (take n pulled.1) s)
    /\ clock_reads run.1.2 = (clock_reads s + n)%nat
    /\ (run.2 = Returned tt -> n = length pulled.1).
Proof.
  intros stream_name pulled run Hfound. subst run.
  rewrite (_read_stream_found _ _ _ _ stream_instance) by done.
  fold stream_name pulled.
  match goal with |- context [read_loop ?x1 ?x2 ?x3 ?x4 ?x5 ?x6 ?x7 ?x8] =>
    destruct (read_loop_records x1 x2 x3 x4 x5 x6 x7 x8)
      as (n & Hn & Hrecords & Hclock & Hall);
    destruct (read_loop x1 x2 x3 x4 x5 x6 x7 x8) as [[out s1] [final | e]] end;
    cbn [fst snd] in *; exists n.
  - destruct (_ && truthy final); cbn [fst snd];
      rewrite ?records_of_app, records_of_opening; cbn [app];
      change (records_of [Yield (STATE ?d)]) with (@nil AirbyteRecordMessage);
      rewrite ?app_nil_r; repeat split; try done; intros _; apply Hall; eauto.
  - rewrite records_of_app, records_of_opening. by repeat split.
Qed.

(** X11.  The [RECORD] messages of [_read_stream] are the records of
    [read_stream], in its order, none twice and none changed, each under the
    name of the configured stream and stamped with the next reading of the
    clock: a prefix of the sequence, and the whole of it when [_read_stream]
    returns. *)
Theorem stream_records_in_order (self : Source) (rt : Runtime) (config : json)
    (configured_stream : ConfiguredAirbyteStream) (stream_instance : Stream) (s : store) :
  let stream_name := Protocol.name (stream configured_stream) in
  let pulled := read_stream stream_instance
                  (seed_state (use_incremental_of configured_stream stream_instance)
                     stream_name s) in
  let run := _read_stream self rt config configured_stream s in
  getitem (streams self config) stream_name = inr stream_instance ->
  exists n, (n <= length pulled.1)%nat
    /\ records_of run.1.1
       = imap (fun k record =>
                 {| record_stream := stream_name; record_data := record;
                    emitted_at := int (timestamp rt (clock_reads s + k)) * 1000 |})
           (take n pulled.1)
    /\ (run.2 = Returned tt -> n = length pulled.1).
Proof.
  intros stream_name pulled run Hfound.
  destruct (_read_stream_records self rt config configured_stream stream_instance s Hfound)
    as (n & Hn & Hrecords & _ & Hall).
  exists n. split; [exact Hn |]. split; [| exact Hall].
  subst run. rewrite Hrecords. apply records_of_record_events.
Qed.

Lemma stream_records_in_order_witness :
  record_data <$> records_of
    (_read_stream Demo.source Demo.rt JNull (Demo.configured "users" full_refresh)
       (initial None)).1.1
  = [JStr "ann"; JStr "bob"].
Proof.
  destruct (stream_records_in_order Demo.source Demo.rt JNull
              (Demo.configured "users" full_refresh) Demo.users (initial None) eq_refl)
    as (n & _ & Hrecords & Hall).
  rewrite Hrecords, (Hall ltac:(vm_compute; reflexivity)). reflexivity.
Defined.

(** *** The clock *)

Lemma read_streams_clock self rt config catalog s :
  let run := read_streams self rt config catalog s in
  clock_reads run.1.2 = (clock_reads s + length (records_of run.1.1))%nat
  /\ forall k r, records_of run.1.1 !! k = Some r ->
       emitted_at r = int (timestamp rt (clock_reads s + k)) * 1000.
Proof.
  revert s. induction catalog as [|configured_stream catalog IH]; intros s.
  - cbn. split; [lia | done].
  - cbv zeta. rewrite read_streams_cons.
    assert (Hstream :
      let run := _read_stream self rt config configured_stream s in
      clock_reads run.1.2 = (clock_reads s + length (records_of run.1.1))%nat
      /\ forall k r, records_of run.1.1 !! k = Some r ->
           emitted_at r = int (timestamp rt (clock_reads s + k)) * 1000).
    { destruct (getitem (streams self config) (Protocol.name (stream configured_stream)))
        as [e | stream_instance] eqn:Hget.
      - rewrite (_read_stream_missing _ _ _ _ e) by done. cbn. split; [lia | done].
      - destruct (_read_stream_records self rt config configured_stream stream_instance
                    s Hget) as (n & Hn & Hrecords & Hclock & _).
        cbv zeta. rewrite Hclock, Hrecords, records_of_record_events.
        rewrite length_imap, length_take. split; [lia |].
        intros k r Hk. apply list_lookup_imap_Some in Hk as (record & _ & ->). done. }
    cbv zeta in Hstream. destruct Hstream as [Hclock1 Hstamp1].
    destruct (_read_stream self rt config configured_stream s) as [[out s1] [[] | e]];
      cbn [fst snd] in *.
    + destruct (IH s1) as [Hclock2 Hstamp2].
      destruct (read_streams self rt config catalog s1) as [[out2 s2] r2].
      cbn [fst snd] in *. rewrite records_of_app, length_app. split; [lia |].
      intros k r Hk. apply lookup_app_Some in Hk as [Hk | [Hlen Hk]].
      * by apply Hstamp1.
      * rewrite (Hstamp2 _ _ Hk), Hclock1. do 3 f_equal. lia.
    + assert (Hlog : records_of (if is_Exception e then [exception_line self rt e] else [])
                     = []) by (by destruct (is_Exception e)).
      rewrite records_of_app, Hlog, app_nil_r. by split.
Qed.

Lemma floor_monotone (a b c d : Z) :
  0 < b -> 0 < d -> a * d <= c * b -> a / b <= c / d.
Proof.
  intros Hb Hd Hle. apply Z.div_le_lower_bound; [done |].
  pose proof (Z.mul_div_le a b Hb). nia.
Qed.

(** [int] never turns an order round. *)
Lemma int_monotone (x y : QArith_base.Q) :
  QArith_base.Qle x y -> int x <= int y.
Proof.
  unfold QArith_base.Qle, int. destruct x as [a b], y as [c d]. cbn.
  intros Hle. pose proof (Pos2Z.is_pos b) as Hb. pose proof (Pos2Z.is_pos d) as Hd.
  destruct (Z.le_gt_cases 0 a) as [Ha | Ha].
  - assert (0 <= c) by nia.
    rewrite !Z.quot_div_nonneg by lia. by apply floor_monotone.
  - rewrite <- (Z.opp_involutive a), Z.quot_opp_l by lia.
    destruct (Z.le_gt_cases 0 c) as [Hc | Hc].
    + pose proof (Z.quot_pos (- a) (Z.pos b) ltac:(lia) Hb).
      pose proof (Z.quot_pos c (Z.pos d) Hc Hd). lia.
    + rewrite <- (Z.opp_involutive c), (Z.quot_opp_l (- c)) by lia.
      rewrite !Z.quot_div_nonneg by lia.
      apply Z.opp_le_mono. rewrite !Z.opp_involutive. apply floor_monotone; lia.
Qed.

(** X12.  [read] reads the clock once per [RECORD] message and nowhere
    else: the [k]-th record of the run carries the [k]-th reading, in whole
    seconds times 1000, across all the streams; so with a clock that never
    goes back, [emitted_at] never decreases along the run. *)
Theorem read_timestamps (self : Source) (rt : Runtime) (config : json)
    (catalog : list ConfiguredAirbyteStream) (state : option (gmap string json)) :
  let run := read self rt config catalog state in
  clock_reads run.1.2 = length (records_of run.1.1)
  /\ (forall k r, records_of run.1.1 !! k = Some r ->
        emitted_at r = int (timestamp rt k) * 1000)
  /\ (clock_monotone rt ->
      forall i j ri rj, (i <= j)%nat ->
        records_of run.1.1 !! i = Some ri -> records_of run.1.1 !! j = Some rj ->
        emitted_at ri <= emitted_at rj).
Proof.
  intros run.
  assert (Hrun : clock_reads run.1.2 = length (records_of run.1.1)
                 /\ forall k r, records_of run.1.1 !! k = Some r ->
                      emitted_at r = int (timestamp rt k) * 1000).
  { subst run. rewrite read_unfold.
    destruct (read_streams_clock self rt config catalog (initial state)) as [Hclock Hstamp].
    destruct (read_streams _ _ _ _ _) as [[out s1] [[] | e]]; cbn [fst snd] in *.
    - change (records_of (?ev :: out ++ [?ev'])) with (records_of (out ++ [ev'])).
      rewrite records_of_app.
      change (records_of [Print ?m]) with (@nil AirbyteRecordMessage).
      rewrite app_nil_r. by split.
    - by split. }
  destruct Hrun as [Hclock Hstamp]. split; [exact Hclock |]. split; [exact Hstamp |].
  intros Hmono i j ri rj Hij Hi Hj.
  rewrite (Hstamp _ _ Hi), (Hstamp _ _ Hj).
  apply Z.mul_le_mono_nonneg_r; [lia |]. apply int_monotone. by apply Hmono.
Qed.

Lemma demo_clock_monotone : clock_monotone Demo.rt.
Proof. intros i j Hij. unfold QArith_base.Qle. cbn. lia. Defined.

Lemma read_timestamps_witness :
  let run := read Demo.source Demo.rt JNull
               [Demo.configured "users" full_refresh; Demo.configured "events" incremental]
               None in
  clock_reads run.1.2 = 252%nat
  /\ (forall ri rj, records_of run.1.1 !! 1%nat = Some ri ->
        records_of run.1.1 !! 200%nat = Some rj -> emitted_at ri <= emitted_at rj).
Proof.
  intros run.
  destruct (read_timestamps Demo.source Demo.rt JNull
              [Demo.configured "users" full_refresh; Demo.configured "events" incremental]
              None) as (Hclock & _ & Hmono).
  fold run in Hclock, Hmono. split.
  - rewrite Hclock. vm_compute. reflexivity.
  - intros ri rj. apply (Hmono demo_clock_monotone 1%nat 200%nat). lia.
Defined.

(** *** The order of the streams *)

Lemma order_replicate stream_name names (k : nat) rs :
  in_catalog_order names rs ->
  in_catalog_order (stream_name :: names) (replicate k stream_name ++ rs).
Proof.
  intros Hrs. induction k as [|k IH]; cbn.
  - by apply order_next.
  - by apply order_same.
Qed.

Lemma record_events_names rt stream_name records s :
  record_stream <$> records_of (record_events rt stream_name records s)
  = replicate (length records) stream_name.
Proof.
  revert s. induction records as [|record records IH]; intros s; [done |].
  cbn [record_events length replicate].
  change (records_of (record_event ?a ?b ?c ?d :: ?l))
    with ({| record_stream := b; record_data := c;
             emitted_at := int (timestamp a (clock_reads d)) * 1000 |} :: records_of l).
  rewrite fmap_cons. cbn [record_stream]. by rewrite IH.
Qed.

Lemma _read_stream_names self rt config configured_stream s :
  exists k : nat,
    record_stream <$> records_of (_read_stream self rt config configured_stream s).1.1
    = replicate k (Protocol.name (stream configured_stream)).
Proof.
  destruct (getitem (streams self config) (Protocol.name (stream configured_stream)))
    as [e | stream_instance] eqn:Hget.
  - rewrite (_read_stream_missing _ _ _ _ e) by done. by exists 0%nat.
  - destruct (_read_stream_records self rt config configured_stream stream_instance
                s Hget) as (n & _ & Hrecords & _).
    cbv zeta in Hrecords. rewrite Hrecords. eexists. apply record_events_names.
Qed.

(** X13.  [read] syncs the streams in the order of the catalog, one after
    the other: the stream names of its [RECORD] messages come in blocks that
    follow the configured streams, and records of two streams are never
    interleaved. *)
Theorem read_in_catalog_order (self : Source) (rt : Runtime) (config : json)
    (catalog : list ConfiguredAirbyteStream) (state : option (gmap string json)) :
  in_catalog_order (catalog_names catalog)
    (record_stream <$> records_of (read self rt config catalog state).1.1).
Proof.
  assert (Hstreams : forall s,
             in_catalog_order (catalog_names catalog)
               (record_stream <$> records_of (read_streams self rt config catalog s).1.1)).
  { induction catalog as [|configured_stream catalog IH]; intros s; [constructor |].
    rewrite read_streams_cons.
    destruct (_read_stream_names self rt config configured_stream s) as [k Hk].
    destruct (_read_stream self rt config configured_stream s) as [[out s1] [[] | e]];
      cbn [fst snd] in *.
    - specialize (IH s1).
      destruct (read_streams self rt config catalog s1) as [[out2 s2] r2].
      cbn [fst snd] in *. rewrite records_of_app, fmap_app, Hk.
      by apply order_replicate.
    - assert (Hlog : records_of (if is_Exception e then [exception_line self rt e] else [])
                     = []) by (by destruct (is_Exception e)).
      rewrite records_of_app, Hlog, app_nil_r, Hk.
      rewrite <- (app_nil_r (replicate k _)). apply order_replicate. constructor. }
  rewrite read_unfold. specialize (Hstreams (initial state)).
  destruct (read_streams _ _ _ _ _) as [[out s1] [[] | e]]; cbn [fst snd] in *.
  - change (records_of (?ev :: out ++ [?ev'])) with (records_of (out ++ [ev'])).
    rewrite records_of_app.
    change (records_of [Print ?m]) with (@nil AirbyteRecordMessage).
    by rewrite app_nil_r.
  - done.
Qed.

(** *** The entries of the other streams *)

Lemma read_loop_other_keys rt stream_name use_incremental records raised
    stream_state c s (key : string) :
  key <> stream_name ->
  let run := read_loop rt stream_name use_incremental records raised stream_state c s in
  total_state run.1.2 !! key = total_state s !! key
  /\ Forall (fun d => d !! key = total_state s !! key) (states run.1.1).
Proof.
  intros Hkey. revert stream_state c s.
  induction records as [|record records IH]; intros stream_state c s.
  - rewrite read_loop_end. by split.
  - destruct use_incremental as [inc |].
    + rewrite read_loop_incremental.
      destruct (get_updated_state inc stream_state record) as [e | stream_state'].
      { by split. }
      destruct (continuously_save_state inc && ((c + 1) mod 100 =? 0)); cbv zeta.
      * destruct (IH stream_state' (c + 1) (merged stream_name stream_state' (tick s)))
          as [Hfinal Hstates].
        destruct (read_loop _ _ _ _ _ _ _ _) as [[out s'] r]. cbn [fst snd] in *.
        change (states (?ev :: Yield (STATE ?d) :: out)) with (d :: states out).
        cbn [merged tick total_state] in *.
        rewrite lookup_insert_ne in Hfinal, Hstates by done.
        split; [done |]. constructor; [by rewrite lookup_insert_ne | done].
      * destruct (IH stream_state' (c + 1) (tick s)) as [Hfinal Hstates].
        destruct (read_loop _ _ _ _ _ _ _ _) as [[out s'] r]. by split.
    + rewrite read_loop_full.
      destruct (IH stream_state (c + 1) (tick s)) as [Hfinal Hstates].
      destruct (read_loop _ _ _ _ _ _ _ _) as [[out s'] r]. by split.
Qed.

Lemma _read_stream_other_keys self rt config configured_stream s (key : string) :
  key <> Protocol.name (stream configured_stream) ->
  let run := _read_stream self rt config configured_stream s in
  total_state run.1.2 !! key = total_state s !! key
  /\ Forall (fun d => d !! key = total_state s !! key) (states run.1.1).
Proof.
  intros Hkey.
  destruct (getitem (streams self config) (Protocol.name (stream configured_stream)))
    as [e | stream_instance] eqn:Hget.
  - rewrite (_read_stream_missing _ _ _ _ e) by done. by split.
  - rewrite (_read_stream_found _ _ _ _ stream_instance) by done.
    match goal with |- context [read_loop ?x1 ?x2 ?x3 ?x4 ?x5 ?x6 ?x7 ?x8] =>
      destruct (read_loop_other_keys x1 x2 x3 x4 x5 x6 x7 x8 key Hkey) as [Hfinal Hstates];
      destruct (read_loop x1 x2 x3 x4 x5 x6 x7 x8) as [[out s1] [final | e]] end;
      cbn [fst snd] in *.
    + destruct (_ && truthy final); cbn [fst snd];
        rewrite ?states_app, states_opening; cbn [app]; [| by split].
      cbn [merged total_state].
      change (states [Yield (STATE ?d)]) with [d].
      rewrite lookup_insert_ne by done. split; [done |].
      rewrite Forall_app. split; [done |]. constructor; [| done].
      by rewrite lookup_insert_ne.
    + rewrite states_app, states_opening. by split.
Qed.

(** X14.  [read] touches the state of the configured streams only: the
    entry of any other key, present or not, is in the final aggregate and in
    every [STATE] message what it was in the state given to [read]. *)
Theorem read_keeps_other_entries (self : Source) (rt : Runtime) (config : json)
    (catalog : list ConfiguredAirbyteStream) (state : option (gmap string json))
    (key : string) :
  key ∉ catalog_names catalog ->
  let run := read self rt config catalog state in
  total_state run.1.2 !! key = default ∅ state !! key
  /\ forall d, d ∈ states run.1.1 -> d !! key = default ∅ state !! key.
Proof.
  intros Hkey run.
  assert (Hstreams : forall s,
             let run := read_streams self rt config catalog s in
             total_state run.1.2 !! key = total_state s !! key
             /\ Forall (fun d => d !! key = total_state s !! key) (states run.1.1)).
  { clear run. induction catalog as [|configured_stream catalog IH]; intros s.
    - by split.
    - cbn in Hkey. apply not_elem_of_cons in Hkey as [Hhead Htail].
      cbv zeta. rewrite read_streams_cons.
      destruct (_read_stream_other_keys self rt config configured_stream s key Hhead)
        as [Hfinal Hstates].
      destruct (_read_stream self rt config configured_stream s) as [[out s1] [[] | e]];
        cbn [fst snd] in *.
      + destruct (IH Htail s1) as [Hfinal2 Hstates2].
        destruct (read_streams self rt config catalog s1) as [[out2 s2] r2].
        cbn [fst snd] in *. rewrite Hfinal in Hfinal2, Hstates2.
        rewrite states_app, Forall_app. by repeat split.
      + assert (Hlog : states (if is_Exception e then [exception_line self rt e] else [])
                       = []) by (by destruct (is_Exception e)).
        rewrite states_app, Hlog, app_nil_r. by split. }
  subst run. rewrite read_unfold. destruct (Hstreams (initial state)) as [Hfinal Hstates].
  rewrite <- Forall_forall.
  destruct (read_streams _ _ _ _ _) as [[out s1] [[] | e]]; cbn [fst snd] in *.
  - change (states (?ev :: out ++ [?ev'])) with (states (out ++ [ev'])).
    rewrite states_app. change (states [Print ?m]) with (@nil (gmap string json)).
    rewrite app_nil_r. by split.
  - by split.
Qed.

Lemma read_keeps_other_entries_witness :
  let run := read Demo.source Demo.rt JNull [Demo.configured "events" incremental]
               (Some {["orders" := JObj [("id", JNum 7)]]}) in
  total_state run.1.2 !! "orders" = Some (JObj [("id", JNum 7)]).
Proof.
  intros run.
  refine (proj1 (read_keeps_other_entries Demo.source Demo.rt JNull
                   [Demo.configured "events" incremental]
                   (Some {["orders" := JObj [("id", JNum 7)]]}) "orders" _)).
  apply (proj1 (bool_decide_eq_false _)). reflexivity.
Defined.

(** *** Records between two states *)

Lemma records_between_snoc_state first bound msgs d :
  records_between_states first bound msgs ->
  records_between_states first bound (msgs ++ [STATE d]).
Proof.
  revert first. induction msgs as [|m msgs IH]; intros first; [done |].
  cbn [app records_between_states].
  destruct (is_record m); [destruct first; [done | apply IH] |].
  destruct (is_state m); apply IH.
Qed.

Lemma read_loop_bound rt stream_name inc records raised stream_state c s :
  continuously_save_state inc = true -> 0 <= c ->
  records_between_states (Z.to_nat (100 - c mod 100)) 100
    (yielded (read_loop rt stream_name (Some inc) records raised stream_state c s).1.1).
Proof.
  intros Hflag. revert stream_state c s.
  induction records as [|record records IH]; intros stream_state c s Hc.
  - by rewrite read_loop_end.
  - rewrite read_loop_incremental.
    assert (Hfirst : exists first, Z.to_nat (100 - c mod 100) = S first
                                   /\ Z.of_nat first = 99 - c mod 100).
    { exists (Z.to_nat (99 - c mod 100)).
      pose proof (Z.mod_pos_bound c 100 ltac:(lia)). lia. }
    destruct Hfirst as (first & -> & Hfirst).
    destruct (get_updated_state inc stream_state record) as [e | stream_state']; [done |].
    rewrite Hflag. cbn [andb].
    destruct ((c + 1) mod 100 =? 0) eqn:Hmod; cbv zeta.
    + specialize (IH stream_state' (c + 1)
                     (merged stream_name stream_state' (tick s)) ltac:(lia)).
      destruct (read_loop _ _ _ _ _ _ _ _) as [[out s'] r]. cbn [fst] in *.
      apply Z.eqb_eq in Hmod. rewrite Hmod in IH. exact IH.
    + specialize (IH stream_state' (c + 1) (tick s) ltac:(lia)).
      destruct (read_loop _ _ _ _ _ _ _ _) as [[out s'] r]. cbn [fst] in *.
      apply Z.eqb_neq in Hmod.
      replace (Z.to_nat (100 - (c + 1) mod 100)) with first in IH; [exact IH |].
      pose proof (Z.mod_pos_bound c 100 ltac:(lia)).
      assert ((c + 1) mod 100 = c mod 100 + 1); [| lia].
      rewrite Z.add_mod in Hmod |- * by lia.
      rewrite (Z.mod_small 1) in * by lia.
      destruct (decide (c mod 100 = 99)) as [H99 | H99].
      * rewrite H99 in Hmod. done.
      * apply Z.mod_small. lia.
Qed.

(** X15.  With [continuously_save_state], an incremental sync never yields
    more than 100 [RECORD] messages in a row: after at most 100 of them comes
    a [STATE] message (or the end of the run). *)
Theorem at_most_100_records_between_states (self : Source) (rt : Runtime) (config : json)
    (configured_stream : ConfiguredAirbyteStream) (stream_instance : Stream)
    (incremental_stream : IncrementalStream) (s : store) :
  getitem (streams self config) (Protocol.name (stream configured_stream))
  = inr stream_instance ->
  sync_mode configured_stream = incremental ->
  as_incremental stream_instance = Some incremental_stream ->
  continuously_save_state incremental_stream = true ->
  records_between_states 100 100
    (yielded (_read_stream self rt config configured_stream s).1.1).
Proof.
  intros Hfound Hmode Hinc Hflag.
  rewrite (_read_stream_found _ _ _ _ stream_instance) by done.
  rewrite SourceProps.use_incremental_of_incremental, Hinc by done.
  match goal with |- context [read_loop ?x1 ?x2 ?x3 ?x4 ?x5 ?x6 ?x7 ?x8] =>
    pose proof (read_loop_bound x1 x2 incremental_stream x4 x5 x6 0 x8 Hflag ltac:(lia))
      as Hloop;
    destruct (read_loop x1 x2 x3 x4 x5 x6 x7 x8) as [[out s1] [final | e]] end;
    cbn [fst] in *; change (Z.to_nat (100 - 0 mod 100)) with 100%nat in Hloop.
  - destruct (_ && truthy final); cbn [fst];
      rewrite ?yielded_app, yielded_opening; cbn [app]; [| done].
    by apply records_between_snoc_state.
  - by rewrite yielded_app, yielded_opening.
Qed.

Lemma at_most_100_records_between_states_witness :
  records_between_states 100 100
    (yielded (_read_stream Demo.source Demo.rt JNull (Demo.configured "events" incremental)
                (initial None)).1.1).
Proof.
  exact (at_most_100_records_between_states Demo.source Demo.rt JNull
           (Demo.configured "events" incremental) Demo.events Demo.events_incremental
           (initial None) eq_refl eq_refl eq_refl eq_refl).
Defined.

(** *** The state that is saved *)

Lemma read_loop_final rt stream_name inc records raised stream_state c s final :
  (read_loop rt stream_name (Some inc) records raised stream_state c s).2 = Returned final ->
  fold_state inc stream_state records = inr final.
Proof.
  revert stream_state c s.
  induction records as [|record records IH]; intros stream_state c s.
  - rewrite read_loop_end. cbn. destruct raised; [done |]. by intros [= ->].
  - rewrite read_loop_incremental. cbn [fold_state].
    destruct (get_updated_state inc stream_state record) as [e | stream_state']; [done |].
    destruct (continuously_save_state inc && ((c + 1) mod 100 =? 0)); cbv zeta.
    + specialize (IH stream_state' (c + 1) (merged stream_name stream_state' (tick s))).
      by destruct (read_loop _ _ _ _ _ _ _ _) as [[out s'] r].
    + specialize (IH stream_state' (c + 1) (tick s)).
      by destruct (read_loop _ _ _ _ _ _ _ _) as [[out s'] r].
Qed.

Lemma read_loop_saved rt stream_name inc records raised stream_state c s :
  continuously_save_state inc = true -> 0 <= c ->
  let run := read_loop rt stream_name (Some inc) records raised stream_state c s in
  (forall (i : nat) d, states run.1.1 !! i = Some d ->
     exists v,
       fold_state inc stream_state
         (take (Z.to_nat (100 * (Z.of_nat i + 1) - c mod 100)) records) = inr v
       /\ d !! stream_name = Some v)
  /\ ((exists final, run.2 = Returned final) ->
      Z.of_nat (length (states run.1.1))
      = (c + Z.of_nat (length records)) / 100 - c / 100).
Proof.
  intros Hflag. revert stream_state c s.
  induction records as [|record records IH]; intros stream_state c s Hc.
  - rewrite read_loop_end. cbn. split; [done |]. intros _.
    rewrite Z.add_0_r. lia.
  - cbv zeta. rewrite read_loop_incremental.
    pose proof (Z.mod_pos_bound c 100 ltac:(lia)) as Hbound.
    pose proof (hundreds_next c Hc) as Hnext.
    destruct (get_updated_state inc stream_state record) as [e | stream_state'] eqn:Hfold.
    { cbn. split; [done |]. by intros [? ?]. }
    rewrite Hflag. cbn [andb].
    destruct ((c + 1) mod 100 =? 0) eqn:Hmod; cbv zeta.
    + destruct (IH stream_state' (c + 1)
                  (merged stream_name stream_state' (tick s)) ltac:(lia))
        as [Hsaved Hcount].
      destruct (read_loop _ _ _ _ _ _ _ _) as [[out s'] r]. cbn [fst snd] in *.
      apply Z.eqb_eq in Hmod.
      assert (Hc99 : c mod 100 = 99).
      { rewrite Z.add_mod in Hmod by lia. rewrite (Z.mod_small 1) in Hmod by lia.
        destruct (decide (c mod 100 = 99)) as [H99 | H99]; [done |].
        rewrite Z.mod_small in Hmod by lia. lia. }
      change (states (?ev :: Yield (STATE ?d) :: out)) with (d :: states out).
      split.
      * intros [|i] d Hd; cbn in Hd.
        -- injection Hd as <-. exists stream_state'.
           replace (Z.to_nat (100 * (Z.of_nat 0 + 1) - c mod 100)) with 1%nat by lia.
           cbn [take fold_state merged total_state]. rewrite Hfold.
           split; [done |]. apply lookup_insert_eq.
        -- destruct (Hsaved i d Hd) as (v & Hv & Hlookup). exists v.
           split; [| done].
           replace (Z.to_nat (100 * (Z.of_nat (S i) + 1) - c mod 100))
             with (S (Z.to_nat (100 * (Z.of_nat i + 1) - (c + 1) mod 100))) by lia.
           cbn [take fold_state]. by rewrite Hfold.
      * intros Hret. specialize (Hcount Hret). cbn [length].
        rewrite Nat2Z.inj_succ, Hcount.
        replace (c + Z.of_nat (S (length records)))
          with (c + 1 + Z.of_nat (length records)) by lia.
        lia.
    + destruct (IH stream_state' (c + 1) (tick s) ltac:(lia)) as [Hsaved Hcount].
      destruct (read_loop _ _ _ _ _ _ _ _) as [[out s'] r]. cbn [fst snd] in *.
      apply Z.eqb_neq in Hmod.
      assert (Hstep : (c + 1) mod 100 = c mod 100 + 1).
      { rewrite Z.add_mod in Hmod |- * by lia.
        rewrite (Z.mod_small 1) in * by lia.
        destruct (decide (c mod 100 = 99)) as [H99 | H99].
        - rewrite H99 in Hmod. done.
        - apply Z.mod_small. lia. }
      change (states (?ev :: out)) with (states out).
      split.
      * intros i d Hd. destruct (Hsaved i d Hd) as (v & Hv & Hlookup). exists v.
        split; [| done].
        replace (Z.to_nat (100 * (Z.of_nat i + 1) - c mod 100))
          with (S (Z.to_nat (100 * (Z.of_nat i + 1) - (c + 1) mod 100))) by lia.
        cbn [take fold_state]. by rewrite Hfold.
      * intros Hret. specialize (Hcount Hret). rewrite Hcount. cbn [length].
        replace (c + Z.of_nat (S (length records)))
          with (c + 1 + Z.of_nat (length records)) by lia.
        lia.
Qed.

(** X16.  What a [STATE] message saves for the stream is
    [get_updated_state] folded over the records yielded so far: with
    [continuously_save_state], the [i]-th [STATE] message of [_read_stream]
    (from 0) has for the stream the state folded from the seed over the
    first [100 * (i + 1)] records, or over all of them when there are
    fewer. *)
Theorem saved_state_is_folded (self : Source) (rt : Runtime) (config : json)
    (configured_stream : ConfiguredAirbyteStream) (stream_instance : Stream)
    (incremental_stream : IncrementalStream) (s : store) :
  let stream_name := Protocol.name (stream configured_stream) in
  let stream_state := seed_state (Some incremental_stream) stream_name s in
  let pulled := read_stream stream_instance stream_state in
  let run := _read_stream self rt config configured_stream s in
  getitem (streams self config) stream_name = inr stream_instance ->
  sync_mode configured_stream = incremental ->
  as_incremental stream_instance = Some incremental_stream ->
  continuously_save_state incremental_stream = true ->
  forall (i : nat) d, states run.1.1 !! i = Some d ->
    exists v,
      fold_state incremental_stream stream_state (take (100 * S i) pulled.1) = inr v
      /\ d !! stream_name = Some v.
Proof.
  intros stream_name stream_state pulled run Hfound Hmode Hinc Hflag i d. subst run.
  rewrite (_read_stream_found _ _ _ _ stream_instance) by done.
  rewrite SourceProps.use_incremental_of_incremental, Hinc by done.
  fold stream_name stream_state pulled.
  destruct (read_loop_saved rt stream_name incremental_stream pulled.1 pulled.2
              stream_state 0 s Hflag ltac:(lia)) as [Hsaved Hcount].
  pose proof (read_loop_final rt stream_name incremental_stream pulled.1 pulled.2
                stream_state 0 s) as Hfinal.
  assert (Hloop : forall (i : nat) d out,
             out = (read_loop rt stream_name (Some incremental_stream) pulled.1 pulled.2
                      stream_state 0 s).1.1 ->
             states out !! i = Some d ->
             exists v,
               fold_state incremental_stream stream_state (take (100 * S i) pulled.1)
               = inr v /\ d !! stream_name = Some v).
  { intros i' d' out -> Hd. destruct (Hsaved i' d' Hd) as (v & Hv & Hlookup).
    exists v. split; [| done].
    replace (100 * S i')%nat with (Z.to_nat (100 * (Z.of_nat i' + 1) - 0 mod 100));
      [done |]. change (0 mod 100) with 0. lia. }
  destruct (read_loop _ _ _ _ _ _ _ _) as [[out s1] [final | e]]; cbn [fst snd] in *.
  - destruct (_ && truthy final); cbn [fst];
      rewrite ?states_app, states_opening; cbn [app]; [| by apply Hloop].
    change (states [Yield (STATE ?x)]) with [x].
    intros [Hd | [Hlen Hd]]%lookup_app_Some; [by eapply Hloop |].
    apply list_lookup_singleton_Some in Hd as [Hi <-].
    exists final. cbn [merged total_state]. split; [| apply lookup_insert_eq].
    rewrite take_ge; [by apply Hfinal |].
    specialize (Hcount ltac:(eauto)). change (0 / 100) with 0 in Hcount.
    pose proof (Z.mod_pos_bound (Z.of_nat (length pulled.1)) 100 ltac:(lia)).
    pose proof (Z.div_mod (Z.of_nat (length pulled.1)) 100 ltac:(lia)).
    rewrite Z.add_0_l in Hcount. lia.
  - rewrite states_app, states_opening. by apply Hloop.
Qed.

Lemma saved_state_is_folded_witness :
  let run := _read_stream Demo.source Demo.rt JNull (Demo.configured "events" incremental)
               (initial None) in
  exists d0 d2,
    states run.1.1 !! 0%nat = Some d0 /\ d0 !! "events" = Some (JObj [("id", JNum 100)])
    /\ states run.1.1 !! 2%nat = Some d2 /\ d2 !! "events" = Some (JObj [("id", JNum 250)]).
Proof.
  intros run.
  pose proof (saved_state_is_folded Demo.source Demo.rt JNull
                (Demo.configured "events" incremental) Demo.events Demo.events_incremental
                (initial None) eq_refl eq_refl eq_refl eq_refl) as Hsaved.
  cbv zeta in Hsaved. fold run in Hsaved.
  destruct (states run.1.1 !! 0%nat) as [d0 |] eqn:H0; [| by vm_compute in H0].
  destruct (states run.1.1 !! 2%nat) as [d2 |] eqn:H2; [| by vm_compute in H2].
  exists d0, d2.
  destruct (Hsaved 0%nat d0 H0) as (v0 & Hv0 & Hd0).
  destruct (Hsaved 2%nat d2 H2) as (v2 & Hv2 & Hd2).
  vm_compute in Hv0, Hv2. injection Hv0 as <-. injection Hv2 as <-.
  repeat split; assumption.
Defined.

(** X17.  When an incremental sync of a stream returns,
    [get_updated_state] has been folded over all its records without
    raising; if the folded state is truthy, it is the entry of the stream in
    the aggregate, and the last message yielded is the [STATE] message with
    that aggregate. *)
Theorem final_state_is_folded (self : Source) (rt : Runtime) (config : json)
    (configured_stream : ConfiguredAirbyteStream) (stream_instance : Stream)
    (incremental_stream : IncrementalStream) (s : store) :
  let stream_name := Protocol.name (stream configured_stream) in
  let stream_state := seed_state (Some incremental_stream) stream_name s in
  let pulled := read_stream stream_instance stream_state in
  let run := _read_stream self rt config configured_stream s in
  getitem (streams self config) stream_name = inr stream_instance ->
  sync_mode configured_stream = incremental ->
  as_incremental stream_instance = Some incremental_stream ->
  run.2 = Returned tt ->
  exists final,
    fold_state incremental_stream stream_state pulled.1 = inr final
    /\ (truthy final = true ->
        total_state run.1.2 !! stream_name = Some final
        /\ last (yielded run.1.1) = Some (STATE (total_state run.1.2))).
Proof.
  intros stream_name stream_state pulled run Hfound Hmode Hinc. subst run.
  rewrite (_read_stream_found _ _ _ _ stream_instance) by done.
  rewrite SourceProps.use_incremental_of_incremental, Hinc by done.
  fold stream_name stream_state pulled.
  pose proof (read_loop_final rt stream_name incremental_stream pulled.1 pulled.2
                stream_state 0 s) as Hfinal.
  destruct (read_loop _ _ _ _ _ _ _ _) as [[out s1] [final | e]]; cbn [fst snd] in *;
    [| done].
  intros _. exists final. split; [by apply Hfinal |]. intros Htruthy.
  rewrite Htruthy, bool_decide_eq_true_2 by eauto. cbn [andb fst snd merged total_state].
  split; [apply lookup_insert_eq |].
  rewrite !yielded_app. change (yielded [Yield ?m]) with [m].
  by rewrite app_assoc, last_snoc.
Qed.

Lemma final_state_is_folded_witness :
  let run := _read_stream Demo.source Demo.rt JNull (Demo.configured "events" incremental)
               (initial None) in
  total_state run.1.2 !! "events" = Some (JObj [("id", JNum 250)]).
Proof.
  intros run.
  destruct (final_state_is_folded Demo.source Demo.rt JNull
              (Demo.configured "events" incremental) Demo.events Demo.events_incremental
              (initial None) eq_refl eq_refl eq_refl ltac:(vm_compute; reflexivity))
    as (final & Hfold & Hfinal).
  vm_compute in Hfold. injection Hfold as <-.
  exact (proj1 (Hfinal eq_refl)).
Defined.

(** X18.  An incremental sync of a stream that has no record to give
    changes nothing: the aggregate and the clock are left as they were, and
    the only message is a [STATE] message repeating the aggregate, yielded
    when the stream has a truthy saved state and not otherwise. *)
Theorem nothing_new_to_pull (self : Source) (rt : Runtime) (config : json)
    (configured_stream : ConfiguredAirbyteStream) (stream_instance : Stream)
    (incremental_stream : IncrementalStream) (s : store) :
  let stream_name := Protocol.name (stream configured_stream) in
  let stream_state := seed_state (Some incremental_stream) stream_name s in
  let run := _read_stream self rt config configured_stream s in
  getitem (streams self config) stream_name = inr stream_instance ->
  sync_mode configured_stream = incremental ->
  as_incremental stream_instance = Some incremental_stream ->
  read_stream stream_instance stream_state = ([], None) ->
  yielded run.1.1
  = (if truthy_opt (total_state s !! stream_name) then [STATE (total_state s)] else [])
  /\ run.1.2 = s
  /\ run.2 = Returned tt.
Proof.
  intros stream_name stream_state run Hfound Hmode Hinc Hpulled. subst run.
  rewrite (_read_stream_found _ _ _ _ stream_instance) by done.
  rewrite SourceProps.use_incremental_of_incremental, Hinc by done.
  fold stream_name stream_state. rewrite Hpulled. cbn [fst snd].
  rewrite read_loop_end. rewrite bool_decide_eq_true_2 by eauto. cbn [andb].
  subst stream_state. unfold seed_state, seeded.
  rewrite bool_decide_eq_true_2 by eauto. cbn [andb].
  destruct (total_state s !! stream_name) as [saved |] eqn:Hsaved;
    cbn [truthy_opt default]; unfold id.
  - assert (Hsame : merged stream_name saved s = s).
    { destruct s as [total clock]. unfold merged. cbn in *. by rewrite insert_id. }
    destruct (truthy saved) eqn:Htruthy; cbn [truthy]; rewrite ?Htruthy, ?Hsame;
      cbn [fst snd]; by rewrite yielded_app, yielded_opening.
  - cbn [truthy fst snd]. by rewrite yielded_app, yielded_opening.
Qed.

Lemma nothing_new_to_pull_witness :
  let s := initial (Some {["idle" := JObj [("id", JNum 7)]]}) in
  let run := _read_stream Demo2.source Demo.rt JNull (Demo.configured "idle" incremental) s in
  yielded run.1.1 = [STATE {["idle" := JObj [("id", JNum 7)]]}] /\ run.1.2 = s.
Proof.
  intros s run.
  destruct (nothing_new_to_pull Demo2.source Demo.rt JNull
              (Demo.configured "idle" incremental) Demo2.idle Demo.events_incremental s
              eq_refl eq_refl eq_refl eq_refl) as (Hyielded & Hstore & _).
  split; [exact Hyielded | exact Hstore].
Defined.

(** X19.  [read] yields [RECORD] and [STATE] messages only; what it logs
    is printed by the logger and is not part of the stream of messages. *)
Theorem read_yields_records_and_states (self : Source) (rt : Runtime) (config : json)
    (catalog : list ConfiguredAirbyteStream) (state : option (gmap string json))
    (m : AirbyteMessage) :
  m ∈ yielded (read self rt config catalog state).1.1 ->
  is_record m = true \/ is_state m = true.
Proof.
  intros (ev & Hev & Hyield)%list_elem_of_omap.
  destruct ev as [m' | m']; simplify_eq.
  assert (Hall : Forall (fun ev => match ev with
                                   | Yield m => is_record m = true \/ is_state m = true
                                   | Print _ => True
                                   end) (read self rt config catalog state).1.1).
  { apply read_events; [done | by right | by left]. }
  rewrite Forall_forall in Hall. exact (Hall _ Hev).
Qed.

Lemma read_yields_records_and_states_witness :
  exists m,
    m ∈ yielded (read Demo.source Demo.rt JNull [Demo.configured "users" full_refresh]
                   None).1.1
    /\ (is_record m = true \/ is_state m = true).
Proof.
  assert (Hfirst : exists m,
             yielded (read Demo.source Demo.rt JNull
                        [Demo.configured "users" full_refresh] None).1.1 !! 0%nat = Some m)
    by (vm_compute; eauto).
  destruct Hfirst as [m Hm]. apply list_elem_of_lookup_2 in Hm.
  exists m. split; [exact Hm |].
  exact (read_yields_records_and_states Demo.source Demo.rt JNull _ None m Hm).
Defined.

End SourceMoreProps.
